(** * smithy-go: ordered middleware groups, the deserialize step and the
      generated waiters

    A shallow embedding of

    - [middleware/ordered_group.go]   ([relativeOrder], [orderedIDs]),
    - [middleware/step_deserialize.go] ([DeserializeStep] and its handlers),
    - the Go text emitted by the waiter code generator ([Waiters.java]:
      [generateWaiterInvoker], [generateRetryable], [writeWaiterComparator],
      [writeMatchedAcceptorReturn]),

    followed by the properties of the specification that concern them.

    Conventions.  A Go method with a pointer receiver is a function taking
    the receiver's state and returning its results together with the new
    state, results first.  A Go [error] is [option error], [None] being
    [nil].  An interface value that may be [nil] is an [option]. *)

From Stdlib Require Import ZArith.
From stdpp Require Import base strings list gmap.

Local Open Scope string_scope.
Local Open Scope list_scope.

(** ** Relative positions and errors *)

(** [type RelativePosition int]: any [int] can be passed, only two are
    meaningful. *)
Definition RelativePosition : Type := Z.
Definition After : RelativePosition := 0%Z.
Definition Before : RelativePosition := 1%Z.

(** One constructor per [fmt.Errorf] of [ordered_group.go]. *)
Inductive error : Type :=
| ErrEmptyID                      (* "empty ID, ID must not be empty" *)
| ErrInsertEmptyID                (* "insert ID must not be empty" *)
| ErrSlotEmptyID                  (* "slot ID must not be empty" *)
| ErrRelativeToEmptyID            (* "relative to ID must not be empty" *)
| ErrSwapFromEmptyID              (* "swap from ID must not be empty" *)
| ErrSwapToEmptyID                (* "swap to ID must not be empty" *)
| ErrSwapSlotMismatch             (* "swap to ID must match slot being swapped" *)
| ErrRemoveEmptyID                (* "remove ID must not be empty" *)
| ErrAlreadyExists (id : string)  (* "already exists, %v" *)
| ErrNotFound (id : string)       (* "not found, %v" *)
| ErrInvalidPosition (pos : Z).   (* "invalid position, %v" *)

(** The duplicate-id error, whatever the id. *)
Definition is_duplicate (e : option error) : bool :=
  match e with
  | Some (ErrAlreadyExists _) => true
  | _ => false
  end.

(** [len(id) == 0] *)
Definition empty_id (id : string) : bool := (String.length id =? 0)%nat.

(** Go's built-in [copy(dst, src)]: the first [min (len dst) (len src)]
    elements of [dst] are overwritten with those of [src]. *)
Definition copy {A : Type} (dst src : list A) : list A :=
  take (length dst) src ++ drop (length src) dst.

(** ** relativeOrder *)

Module relativeOrder.

(** [type relativeOrder struct { order []string }] *)
Record t : Type := mk { order : list string }.

Definition empty : t := mk [].

(** The loop of [has], started at index [i]. *)
Fixpoint scan (i : nat) (l : list string) (id : string) : nat * bool :=
  match l with
  | [] => (0%nat, false)
  | x :: rest => if decide (x = id) then (i, true) else scan (S i) rest id
  end.

(** [func (s *relativeOrder) has(id string) (i int, found bool)] *)
Definition has (s : t) (id : string) : nat * bool := scan 0 (order s) id.

(** [func (s *relativeOrder) insert(i int, id string, pos RelativePosition) error].
    The callers pass [0] or an index returned by [has]; the slice
    expressions are written with [take] and [drop], which agree with Go
    on every index in range. *)
Definition insert (s : t) (i : nat) (id : string) (pos : RelativePosition)
  : option error * t :=
  if decide (pos = Before) then
    (* s.order = append(s.order, "") *)
    let o1 := order s ++ [""] in
    (* copy(s.order[i+1:], s.order[i:]) *)
    let o2 := take (S i) o1 ++ copy (drop (S i) o1) (drop i o1) in
    (* s.order[i] = id *)
    (None, mk (<[i := id]> o2))
  else if decide (pos = After) then
    if decide (Z.of_nat i = (Z.of_nat (length (order s)) - 1)%Z) then
      (None, mk (order s ++ [id]))
    else
      (None, mk (take (S i) (order s) ++ ([id] ++ drop (S i) (order s))))
  else
    (Some (ErrInvalidPosition pos), s).

(** [func (s *relativeOrder) Add(id string, pos RelativePosition) error] *)
Definition Add (s : t) (id : string) (pos : RelativePosition)
  : option error * t :=
  if snd (has s id) then (Some (ErrAlreadyExists id), s)
  else if decide (pos = Before) then insert s 0 id Before
  else if decide (pos = After) then (None, mk (order s ++ [id]))
  else (Some (ErrInvalidPosition pos), s).

(** [func (s *relativeOrder) Insert(id, relativeTo string, pos RelativePosition) error] *)
Definition Insert (s : t) (id relativeTo : string) (pos : RelativePosition)
  : option error * t :=
  if snd (has s id) then (Some (ErrAlreadyExists id), s)
  else
    let '(i, ok) := has s relativeTo in
    if negb ok then (Some (ErrNotFound relativeTo), s)
    else insert s i id pos.

(** [func (s *relativeOrder) Swap(id, to string) error] *)
Definition Swap (s : t) (id to : string) : option error * t :=
  let '(i, ok) := has s id in
  if negb ok then (Some (ErrNotFound id), s)
  else if snd (has s to) && negb (bool_decide (id = to))
  then (Some (ErrAlreadyExists to), s)
  else (None, mk (<[i := to]> (order s))).

(** [func (s *relativeOrder) Remove(id string) error] *)
Definition Remove (s : t) (id : string) : option error * t :=
  let '(i, ok) := has s id in
  if negb ok then (Some (ErrNotFound id), s)
  else (None, mk (take i (order s) ++ drop (S i) (order s))).

(** [func (s *relativeOrder) List() []string] *)
Definition List (s : t) : list string := order s.

(** [func (s *relativeOrder) Clear()] *)
Definition Clear (s : t) : t := mk (take 0 (order s)).

End relativeOrder.

(** ** orderedIDs *)

(** [type ider interface { ID() string }] *)
Class ider (T : Type) : Type := ID : T -> string.

Module orderedIDs.
Section WithItem.
Context {Item : Type} `{ider Item}.

(** [type orderedIDs struct]: [items] is [map[string]ider] and [slots] is
    [map[string]struct{}], used as a set.  Every method that stores an
    item calls its [ID] method first, so a stored item is never [nil]. *)
Record t : Type := mk {
  order : relativeOrder.t;
  items : gmap string Item;
  slots : gset string
}.

Definition with_order (g : t) (o : relativeOrder.t) : t :=
  mk o (items g) (slots g).
Definition with_items (g : t) (m : gmap string Item) : t :=
  mk (order g) m (slots g).
Definition with_slots (g : t) (s : gset string) : t :=
  mk (order g) (items g) s.

(** [func newOrderedIDs() *orderedIDs] *)
Definition newOrderedIDs : t := mk relativeOrder.empty ∅ ∅.

(** [func (g *orderedIDs) IsSlot(id string) bool] *)
Definition IsSlot (g : t) (id : string) : bool := bool_decide (id ∈ slots g).

(** [func (g *orderedIDs) Add(m ider, pos RelativePosition) error] *)
Definition Add (g : t) (m : Item) (pos : RelativePosition) : option error * t :=
  let id := ID m in
  if empty_id id then (Some ErrEmptyID, g)
  else
    let '(err, g1) :=
      if negb (IsSlot g id) then
        let '(err, o) := relativeOrder.Add (order g) id pos in
        (err, with_order g o)
      else (None, g) in
    match err with
    | Some e => (Some e, g1)
    | None => (None, with_items g1 (<[id := m]> (items g1)))
    end.

(** [func (g *orderedIDs) AddSlot(id string, pos RelativePosition) error] *)
Definition AddSlot (g : t) (id : string) (pos : RelativePosition)
  : option error * t :=
  if empty_id id then (Some ErrEmptyID, g)
  else
    let '(err, o) := relativeOrder.Add (order g) id pos in
    let g1 := with_order g o in
    match err with
    | Some e => (Some e, g1)
    | None => (None, with_slots g1 ({[id]} ∪ slots g1))
    end.

(** [func (g *orderedIDs) Insert(m ider, relativeTo string, pos RelativePosition) error] *)
Definition Insert (g : t) (m : Item) (relativeTo : string)
  (pos : RelativePosition) : option error * t :=
  if empty_id (ID m) then (Some ErrInsertEmptyID, g)
  else if empty_id relativeTo then (Some ErrRelativeToEmptyID, g)
  else
    let '(err, o) := relativeOrder.Insert (order g) (ID m) relativeTo pos in
    let g1 := with_order g o in
    match err with
    | Some e => (Some e, g1)
    | None => (None, with_items g1 (<[ID m := m]> (items g1)))
    end.

(** [func (g *orderedIDs) InsertSlot(id, relativeTo string, pos RelativePosition) error] *)
Definition InsertSlot (g : t) (id relativeTo : string)
  (pos : RelativePosition) : option error * t :=
  if empty_id id then (Some ErrSlotEmptyID, g)
  else if empty_id relativeTo then (Some ErrRelativeToEmptyID, g)
  else
    let '(err, o) := relativeOrder.Insert (order g) id relativeTo pos in
    let g1 := with_order g o in
    match err with
    | Some e => (Some e, g1)
    | None => (None, with_slots g1 ({[id]} ∪ slots g1))
    end.

(** [func (g *orderedIDs) Get(id string) (ider, bool)]: [None] is
    [(nil, false)]. *)
Definition Get (g : t) (id : string) : option Item := items g !! id.

(** [func (g *orderedIDs) Swap(id string, m ider) (ider, error)].  The
    first result is the interface value [removed]: [None] is the [nil]
    that indexing [g.items] yields for a key that is not bound. *)
Definition Swap (g : t) (id : string) (m : Item)
  : (option Item * option error) * t :=
  if empty_id id then ((None, Some ErrSwapFromEmptyID), g)
  else
    let iderID := ID m in
    if empty_id iderID then ((None, Some ErrSwapToEmptyID), g)
    else if IsSlot g id && negb (bool_decide (id = iderID))
    then ((None, Some ErrSwapSlotMismatch), g)
    else
      let '(err, o) := relativeOrder.Swap (order g) id iderID in
      let g1 := with_order g o in
      match err with
      | Some e => ((None, Some e), g1)
      | None =>
          let removed := items g1 !! id in
          ((removed, None),
           with_items g1 (<[iderID := m]> (delete id (items g1))))
      end.

(** [func (g *orderedIDs) Remove(id string) error] *)
Definition Remove (g : t) (id : string) : option error * t :=
  if empty_id id then (Some ErrRemoveEmptyID, g)
  else
    let '(err, g1) :=
      if negb (IsSlot g id) then
        let '(err, o) := relativeOrder.Remove (order g) id in
        (err, with_order g o)
      else (None, g) in
    match err with
    | Some e => (Some e, g1)
    | None => (None, with_items g1 (delete id (items g1)))
    end.

(** [func (g *orderedIDs) List() []string]: a fresh copy of the order. *)
Definition List (g : t) : list string :=
  let items := relativeOrder.List (order g) in
  copy (replicate (length items) "") items.

(** [func (g *orderedIDs) Clear()] *)
Definition Clear (g : t) : t := mk (relativeOrder.Clear (order g)) ∅ ∅.

(** [func (g *orderedIDs) GetOrder() []interface{}]: the loop appends
    [g.items[order[i]]] for every id of the order that is bound. *)
Definition GetOrder (g : t) : list Item :=
  foldl (fun ordered id =>
           match items g !! id with
           | Some m => ordered ++ [m]
           | None => ordered
           end) [] (relativeOrder.List (order g)).

End WithItem.
Arguments t Item : clear implicits.
End orderedIDs.

(** ** The deserialize step *)

(** The message of the run-time panic of [x.(DeserializeMiddleware)] on a
    [nil] interface. *)
Definition nil_assertion : string :=
  "interface conversion: interface is nil, not middleware.DeserializeMiddleware".

(** What a call leaves behind: it returned, or it panicked at run time. *)
Inductive outcome (A : Type) : Type :=
| Returns (a : A)
| Panics (reason : string).
Arguments Returns {A} a.
Arguments Panics {A} reason.

Module step_deserialize.
Section Handlers.
(** [context.Context], the dynamic values behind [interface{}] (a [nil]
    interface is [None]), [Metadata], the errors of handlers, and the
    state of the world that handlers read and change. *)
Variables (Ctx Value Metadata HErr World : Type).

(** [type DeserializeInput struct { Request interface{} }] *)
Record DeserializeInput : Type := { Request : option Value }.

(** [type DeserializeOutput struct { RawResponse, Result interface{} }] *)
Record DeserializeOutput : Type := {
  RawResponse : option Value;
  Result : option Value
}.

(** [Handler.Handle(ctx, input) (output, metadata, err)] *)
Definition Handler : Type :=
  Ctx -> option Value -> World ->
  (option Value * Metadata * option HErr) * World.

(** [DeserializeHandler.HandleDeserialize(ctx, in) (out, metadata, err)] *)
Definition DeserializeHandler : Type :=
  Ctx -> DeserializeInput -> World ->
  (DeserializeOutput * Metadata * option HErr) * World.

(** [type DeserializeMiddleware interface]: its two methods. *)
Record DeserializeMiddleware : Type := {
  mwID : string;
  mwHandleDeserialize :
    Ctx -> DeserializeInput -> DeserializeHandler -> World ->
    (DeserializeOutput * Metadata * option HErr) * World
}.

#[local] Instance DeserializeMiddleware_ider : ider DeserializeMiddleware := mwID.

(** [func DeserializeMiddlewareFunc(id string, fn func(...)) DeserializeMiddleware] *)
Definition DeserializeMiddlewareFunc (id : string)
  (fn : Ctx -> DeserializeInput -> DeserializeHandler -> World ->
        (DeserializeOutput * Metadata * option HErr) * World)
  : DeserializeMiddleware :=
  {| mwID := id; mwHandleDeserialize := fn |}.

(** [type DeserializeStep struct { ids *orderedIDs }].  Only the methods
    below store into [ids], so every item is a [DeserializeMiddleware]. *)
Record DeserializeStep : Type := { ids : orderedIDs.t DeserializeMiddleware }.

(** [func NewDeserializeStep() *DeserializeStep] *)
Definition NewDeserializeStep : DeserializeStep :=
  {| ids := orderedIDs.newOrderedIDs |}.

(** [func (w deserializeWrapHandler) HandleDeserialize(ctx, in)] *)
Definition deserializeWrapHandler (Next : Handler) : DeserializeHandler :=
  fun ctx i w =>
    let '((resp, metadata, err), w') := Next ctx (Request i) w in
    (({| RawResponse := resp; Result := None |}, metadata, err), w').

(** [func (h decoratedDeserializeHandler) HandleDeserialize(ctx, in)] *)
Definition decoratedDeserializeHandler (Next : DeserializeHandler)
  (With : DeserializeMiddleware) : DeserializeHandler :=
  fun ctx i => mwHandleDeserialize With ctx i Next.

(** [func (s *DeserializeStep) HandleMiddleware(ctx, in, next)]: the loop
    runs [i] from [len(order)-1] down to [0], that is, over the reversed
    order. *)
Definition HandleMiddleware (s : DeserializeStep) (ctx : Ctx)
  (i : option Value) (next : Handler)
  : World -> (option Value * Metadata * option HErr) * World :=
  fun w =>
    let order := orderedIDs.GetOrder (ids s) in
    let h := foldl decoratedDeserializeHandler
                   (deserializeWrapHandler next) (reverse order) in
    let sIn := {| Request := i |} in
    let '((res, metadata, err), w') := h ctx sIn w in
    ((Result res, metadata, err), w').

(** [func (s *DeserializeStep) Get(id string) (DeserializeMiddleware, bool)] *)
Definition Get (s : DeserializeStep) (id : string)
  : option DeserializeMiddleware :=
  match orderedIDs.Get (ids s) id with
  | None => None
  | Some get => Some get
  end.

(** [func (s *DeserializeStep) Add(m DeserializeMiddleware, pos RelativePosition) error] *)
Definition Add (s : DeserializeStep) (m : DeserializeMiddleware)
  (pos : RelativePosition) : option error * DeserializeStep :=
  let '(err, g) := orderedIDs.Add (ids s) m pos in (err, {| ids := g |}).

(** [func (s *DeserializeStep) AddSlot(id string, pos RelativePosition) error] *)
Definition AddSlot (s : DeserializeStep) (id : string)
  (pos : RelativePosition) : option error * DeserializeStep :=
  let '(err, g) := orderedIDs.AddSlot (ids s) id pos in (err, {| ids := g |}).

(** [func (s *DeserializeStep) Insert(m, relativeTo, pos) error] *)
Definition Insert (s : DeserializeStep) (m : DeserializeMiddleware)
  (relativeTo : string) (pos : RelativePosition)
  : option error * DeserializeStep :=
  let '(err, g) := orderedIDs.Insert (ids s) m relativeTo pos in
  (err, {| ids := g |}).

(** [func (s *DeserializeStep) InsertSlot(id, relativeTo, pos) error] *)
Definition InsertSlot (s : DeserializeStep) (id relativeTo : string)
  (pos : RelativePosition) : option error * DeserializeStep :=
  let '(err, g) := orderedIDs.InsertSlot (ids s) id relativeTo pos in
  (err, {| ids := g |}).

(** [func (s *DeserializeStep) Swap(id string, m DeserializeMiddleware)
    (DeserializeMiddleware, error)].  The last line is the single-value
    type assertion [removed.(DeserializeMiddleware)]: it panics when
    [removed] is the [nil] interface. *)
Definition Swap (s : DeserializeStep) (id : string) (m : DeserializeMiddleware)
  : outcome (option DeserializeMiddleware * option error) * DeserializeStep :=
  let '((removed, err), g) := orderedIDs.Swap (ids s) id m in
  let s' := {| ids := g |} in
  match err with
  | Some e => (Returns (None, Some e), s')
  | None =>
      match removed with
      | Some r => (Returns (Some r, None), s')
      | None =>
          (Panics nil_assertion, s')
      end
  end.

(** [func (s *DeserializeStep) Remove(id string) error] *)
Definition Remove (s : DeserializeStep) (id : string)
  : option error * DeserializeStep :=
  let '(err, g) := orderedIDs.Remove (ids s) id in (err, {| ids := g |}).

(** [func (s *DeserializeStep) List() []string] *)
Definition List (s : DeserializeStep) : list string := orderedIDs.List (ids s).

(** [func (s *DeserializeStep) Clear()] *)
Definition Clear (s : DeserializeStep) : DeserializeStep :=
  {| ids := orderedIDs.Clear (ids s) |}.

End Handlers.

#[global] Existing Instance DeserializeMiddleware_ider.

Arguments Request {Value} _.
Arguments RawResponse {Value} _.
Arguments Result {Value} _.
Arguments mwID {Ctx Value Metadata HErr World} _.
Arguments mwHandleDeserialize {Ctx Value Metadata HErr World} _.
Arguments ids {Ctx Value Metadata HErr World} _.
Arguments NewDeserializeStep {Ctx Value Metadata HErr World}.
Arguments deserializeWrapHandler {Ctx Value Metadata HErr World} Next.
Arguments decoratedDeserializeHandler {Ctx Value Metadata HErr World} Next With.
Arguments HandleMiddleware {Ctx Value Metadata HErr World} s ctx i next.
Arguments DeserializeMiddlewareFunc {Ctx Value Metadata HErr World} id fn.
Arguments Get {Ctx Value Metadata HErr World} s id.
Arguments Add {Ctx Value Metadata HErr World} s m pos.
Arguments AddSlot {Ctx Value Metadata HErr World} s id pos.
Arguments Insert {Ctx Value Metadata HErr World} s m relativeTo pos.
Arguments InsertSlot {Ctx Value Metadata HErr World} s id relativeTo pos.
Arguments Swap {Ctx Value Metadata HErr World} s id m.
Arguments Remove {Ctx Value Metadata HErr World} s id.
Arguments List {Ctx Value Metadata HErr World} s.
Arguments Clear {Ctx Value Metadata HErr World} s.

(** *** Counting stubs

    The world is the list of the ids of the middleware invoked so far. *)
Section Stubs.
Variables (Ctx Value Metadata HErr : Type).

Definition Trace : Type := list string.

(** A middleware that records its id and delegates to [next]. *)
Definition delegating (id : string)
  : DeserializeMiddleware Ctx Value Metadata HErr Trace :=
  DeserializeMiddlewareFunc id
    (fun ctx i next w => next ctx i (w ++ [id])).

(** A middleware that records its id and returns [out] without calling
    [next]. *)
Definition shortCircuiting (id : string)
  (out : DeserializeOutput Value * Metadata * option HErr)
  : DeserializeMiddleware Ctx Value Metadata HErr Trace :=
  DeserializeMiddlewareFunc id
    (fun ctx i next w => (out, w ++ [id])).
End Stubs.

Arguments delegating {Ctx Value Metadata HErr} id.
Arguments shortCircuiting {Ctx Value Metadata HErr} id out.

End step_deserialize.

(** ** The generated waiters

    [Waiters.java] writes Go source.  Each definition below is the meaning
    of the Go text that the generator method of the same name emits, as a
    function of the modelled waiter that the method receives. *)

Module Waiters.

(** [time.Duration] and the attempt counter are [int64]. *)
Definition wrap64 (z : Z) : Z :=
  ((z + 2 ^ 63) mod 2 ^ 64 - 2 ^ 63)%Z.

(** [time.Second], in nanoseconds. *)
Definition Second : Z := 1000000000%Z.

(** [software.amazon.smithy.waiters.AcceptorState] *)
Inductive AcceptorState : Type := SUCCESS | FAILURE | RETRY.

(** [software.amazon.smithy.waiters.PathComparator] *)
Inductive PathComparator : Type :=
| STRING_EQUALS | BOOLEAN_EQUALS | ALL_STRING_EQUALS | ANY_STRING_EQUALS.

(** [software.amazon.smithy.waiters.PathMatcher] *)
Record PathMatcher : Type := {
  getPath : string;
  getExpected : string;
  getComparator : PathComparator
}.

(** [software.amazon.smithy.waiters.Matcher], by member name: ["output"],
    ["inputOutput"], ["success"], ["errorType"]. *)
Inductive Matcher : Type :=
| OutputMember (value : PathMatcher)
| InputOutputMember (value : PathMatcher)
| SuccessMember (value : bool)
| ErrorTypeMember (value : string).

(** [software.amazon.smithy.waiters.Acceptor] *)
Record Acceptor : Type := {
  getState : AcceptorState;
  getMatcher : Matcher
}.

(** [software.amazon.smithy.waiters.Waiter]; the delays are in seconds. *)
Record Waiter : Type := {
  getMinDelay : Z;
  getMaxDelay : Z;
  getAcceptors : list Acceptor
}.

(** The dynamic type of what [jmespath.Search] returns, as far as the
    comparators tell values apart: [string], [bool], [[]string], and
    everything else (with the name [%T] prints). *)
Inductive pathValue : Type :=
| VString (s : string)
| VBool (b : bool)
| VStrings (l : list string)
| VOther (goType : string).

(** Go's [strconv.ParseBool]; [None] is its syntax error. *)
Definition ParseBool (str : string) : option bool :=
  if bool_decide (str ∈ ["1"; "t"; "T"; "true"; "TRUE"; "True"]) then Some true
  else if bool_decide (str ∈ ["0"; "f"; "F"; "false"; "FALSE"; "False"]) then Some false
  else None.

(** Java's [String.equalsIgnoreCase], on the ASCII letters that shape
    names are made of. *)
Definition lower (c : Ascii.ascii) : Ascii.ascii :=
  let n := Ascii.N_of_ascii c in
  if ((65 <=? n) && (n <=? 90))%N then Ascii.ascii_of_N (n + 32) else c.

Fixpoint equalsIgnoreCase (a b : string) : bool :=
  match a, b with
  | EmptyString, EmptyString => true
  | String x a', String y b' =>
      bool_decide (lower x = lower y) && equalsIgnoreCase a' b'
  | _, _ => false
  end.

(** One constructor per [fmt.Errorf] that the generator writes; the [%w]
    and [%T] arguments are kept. *)
Inductive waiterError (ExtErr : Type) : Type :=
| ErrMaxWaitTimeNotPositive
    (* "maximum wait time for waiter must be greater than zero" *)
| ErrExceededMaximumWaitTime (waiterName : string)
    (* "exceeded maximum wait time for $L waiter" *)
| ErrExceededMaxWaitTime (waiterName : string)
    (* "exceeded max wait time for $L waiter" *)
| ErrComputingDelay (e : ExtErr)
    (* "error computing waiter delay, %w" *)
| ErrCancelledWhileWaiting (e : ExtErr)
    (* "request cancelled while waiting, %w" *)
| ErrEvaluatingState (e : ExtErr)
    (* "error evaluating waiter state: %w" *)
| ErrExpectedString (actual : pathValue)
    (* "waiter comparator expected string value got %T" *)
| ErrParsingBool (expected : string)
    (* "error parsing boolean from string %w" *)
| ErrExpectedBool (actual : pathValue)
    (* "waiter comparator expected bool value got %T" *)
| ErrExpectedStrings (actual : pathValue)
    (* "waiter comparator expected []string value got %T" *)
| ErrFailureState
    (* "waiter state transitioned to Failure" *)
| ErrNotAPIError
    (* "expected err to be of type smithy.APIError" *)
| ErrFromOverride (e : ExtErr).
    (* whatever a caller-supplied Retryable returns *)
Arguments ErrMaxWaitTimeNotPositive {ExtErr}.
Arguments ErrExceededMaximumWaitTime {ExtErr} waiterName.
Arguments ErrExceededMaxWaitTime {ExtErr} waiterName.
Arguments ErrComputingDelay {ExtErr} e.
Arguments ErrCancelledWhileWaiting {ExtErr} e.
Arguments ErrEvaluatingState {ExtErr} e.
Arguments ErrExpectedString {ExtErr} actual.
Arguments ErrParsingBool {ExtErr} expected.
Arguments ErrExpectedBool {ExtErr} actual.
Arguments ErrExpectedStrings {ExtErr} actual.
Arguments ErrFailureState {ExtErr}.
Arguments ErrNotAPIError {ExtErr}.
Arguments ErrFromOverride {ExtErr} e.

(** The configuration error of the invoker, as opposed to the others. *)
Definition is_configuration_error {ExtErr : Type}
  (e : option (waiterError ExtErr)) : bool :=
  match e with
  | Some ErrMaxWaitTimeNotPositive => true
  | _ => false
  end.

(** What the invoker does that can be observed from outside. *)
Inductive event : Type :=
| EvComputeDelay (attempt : Z)     (* waiter.ComputeDelay *)
| EvSleep (delay : Z)              (* smithytime.SleepWithContext *)
| EvLog (count : Z)                (* logger.Logf *)
| EvInvoke (attempt : Z)           (* w.client.Operation *)
| EvRetryable (attempt : Z).       (* options.Retryable *)

(** The [(bool, error)] of a retryable function. *)
Definition verdict (ExtErr : Type) : Type := bool * option (waiterError ExtErr).

Section Generated.
(** The operation's input and output structures, the errors the
    operation returns, the errors of the collaborators, the context,
    and the stack options. *)
Variables (Input Output OpErr ExtErr Ctx APIOption : Type).

(** [jmespath.Search(path, output)] and
    [jmespath.Search(path, &struct{Input; Output}{input, output})] *)
Variable Search : string -> option Output -> pathValue + ExtErr.
Variable SearchInputOutput :
  string -> Input -> option Output -> pathValue + ExtErr.

(** [errors.As(err, &errorType)] for [errorType *types.<name>], and
    [errors.As(err, &apiErr)] followed by [apiErr.ErrorCode()]. *)
Variable errorsAsModeled : OpErr -> string -> bool.
Variable errorsAsAPIError : OpErr -> option string.

(** The names of [operationShape.getErrors()], the modelled waiter and
    its name. *)
Variable operationErrors : list string.
Variable waiterName : string.
Variable waiter : Waiter.

Local Abbreviation verdict := (verdict ExtErr).

(** [writeMatchedAcceptorReturn]: the [return] written for the
    acceptor's state. *)
Definition writeMatchedAcceptorReturn (acceptor : Acceptor) : verdict :=
  match getState acceptor with
  | SUCCESS => (false, None)
  | FAILURE => (false, Some ErrFailureState)
  | RETRY => (true, None)
  end.

(** The loop of [ANY_STRING_EQUALS]: return at the first equal value. *)
Fixpoint anyLoop (acceptor : Acceptor) (listOfValues : list string)
  (expected : string) : option verdict :=
  match listOfValues with
  | [] => None
  | v :: rest =>
      if bool_decide (v = expected)
      then Some (writeMatchedAcceptorReturn acceptor)
      else anyLoop acceptor rest expected
  end.

(** [writeWaiterComparator]: [Some] is a [return] of the retryable
    function, [None] is falling out of the block. *)
Definition writeWaiterComparator (acceptor : Acceptor)
  (comparator : PathComparator) (actual : pathValue) (expected : string)
  : option verdict :=
  match comparator with
  | STRING_EQUALS =>
      match actual with
      | VString value =>
          if bool_decide (value = expected)
          then Some (writeMatchedAcceptorReturn acceptor) else None
      | _ => Some (false, Some (ErrExpectedString actual))
      end
  | BOOLEAN_EQUALS =>
      match ParseBool expected with
      | None => Some (false, Some (ErrParsingBool expected))
      | Some bv =>
          match actual with
          | VBool value =>
              if Bool.eqb value bv
              then Some (writeMatchedAcceptorReturn acceptor) else None
          | _ => Some (false, Some (ErrExpectedBool actual))
          end
      end
  | ALL_STRING_EQUALS =>
      (* var match = true *)
      let match0 := true in
      match actual with
      | VStrings listOfValues =>
          (* if len(listOfValues) == 0 { match = false } *)
          let match1 :=
            if (length listOfValues =? 0)%nat then false else match0 in
          (* for _, v := range listOfValues { if v != expected { match = false } } *)
          let match2 :=
            foldl (fun m v => if negb (bool_decide (v = expected))
                              then false else m) match1 listOfValues in
          if match2 then Some (writeMatchedAcceptorReturn acceptor) else None
      | _ => Some (false, Some (ErrExpectedStrings actual))
      end
  | ANY_STRING_EQUALS =>
      match actual with
      | VStrings listOfValues => anyLoop acceptor listOfValues expected
      | _ => Some (false, Some (ErrExpectedStrings actual))
      end
  end.

(** The block that [generateRetryable] writes for one acceptor. *)
Definition acceptorBlock (acceptor : Acceptor) (input : Input)
  (output : option Output) (err : option OpErr) : option verdict :=
  match getMatcher acceptor with
  | OutputMember outputMember =>
      match err with
      | None =>
          match Search (getPath outputMember) output with
          | inr e => Some (false, Some (ErrEvaluatingState e))
          | inl pathValue =>
              writeWaiterComparator acceptor (getComparator outputMember)
                pathValue (getExpected outputMember)
          end
      | Some _ => None
      end
  | InputOutputMember ioMember =>
      match err with
      | None =>
          match SearchInputOutput (getPath ioMember) input output with
          | inr e => Some (false, Some (ErrEvaluatingState e))
          | inl pathValue =>
              writeWaiterComparator acceptor (getComparator ioMember)
                pathValue (getExpected ioMember)
          end
      | Some _ => None
      end
  | SuccessMember _ =>
      match err with
      | None => Some (writeMatchedAcceptorReturn acceptor)
      | Some _ => None
      end
  | ErrorTypeMember errorType =>
      match err with
      | None => None
      | Some e =>
          match List.find (fun name => equalsIgnoreCase name errorType)
                          operationErrors with
          | Some name =>
              if errorsAsModeled e name
              then Some (writeMatchedAcceptorReturn acceptor) else None
          | None =>
              match errorsAsAPIError e with
              | None => Some (false, Some ErrNotAPIError)
              | Some code =>
                  if bool_decide (errorType = code)
                  then Some (writeMatchedAcceptorReturn acceptor) else None
              end
          end
      end
  end.

(** The body of the function [generateRetryable] writes, for the
    acceptors that remain; it ends in [return true, nil]. *)
Fixpoint retryableBody (acceptors : list Acceptor) (input : Input)
  (output : option Output) (err : option OpErr) : verdict :=
  match acceptors with
  | [] => (true, None)
  | acceptor :: rest =>
      match acceptorBlock acceptor input output err with
      | Some v => v
      | None => retryableBody rest input output err
      end
  end.

(** [generateRetryable]: the function [<name>StateRetryable]. *)
Definition generateRetryable (input : Input) (output : option Output)
  (err : option OpErr) : verdict :=
  retryableBody (getAcceptors waiter) input output err.


(** The waiter options that [generateWaiterOptions] declares.  The
    context argument of [Retryable] is the invoker's and is left out. *)
Record WaiterOptions : Type := {
  APIOptions : list APIOption;
  MinDelay : Z;
  MaxDelay : Z;
  LogWaitAttempts : bool;
  Retryable : Input -> option Output -> option OpErr -> verdict
}.

(** The waiter client that [generateWaiterClient] declares; its [client]
    field is the operation: called with the context, the parameters
    and the stack options at a given attempt, it returns [(out, err)]. *)
Record WaiterClient : Type := {
  client : Ctx -> Input -> list APIOption -> Z -> option Output * option OpErr;
  options : WaiterOptions
}.

(** The constructor [New<name>Waiter] of [generateWaiterClient]. *)
Definition NewWaiter
  (client : Ctx -> Input -> list APIOption -> Z -> option Output * option OpErr)
  (optFns : list (WaiterOptions -> WaiterOptions)) : WaiterClient :=
  let options :=
    {| APIOptions := [];
       MinDelay := (getMinDelay waiter * Second)%Z;
       MaxDelay := (getMaxDelay waiter * Second)%Z;
       LogWaitAttempts := false;
       Retryable := generateRetryable |} in
  let options := foldl (fun o fn => fn o) options optFns in
  {| client := client; options := options |}.

(** [waiter.ComputeDelay(minDelay, maxDelay, remainingTime, attempt)],
    [smithytime.SleepWithContext(ctx, delay)] at a given attempt, and
    [context.WithDeadline(ctx, time.Now().Add(maxWaitTime))]: they are
    not part of these sources. *)
Variable ComputeDelay : Z -> Z -> Z -> Z -> Z + ExtErr.
Variable SleepWithContext : Ctx -> Z -> Z -> option ExtErr.
Variable WithDeadline : Ctx -> Z -> Ctx.

(** The [if attempt > 0 { ... }] block of the loop: [inr] is a
    [return] of the invoker, [inl] carries on with the remaining time. *)
Definition backoff (ctx : Ctx) (options : WaiterOptions)
  (attempt remainingTime : Z) (tr : list event)
  : (Z * list event) + (option (waiterError ExtErr) * list event) :=
  if (0 <? attempt)%Z then
    let tr := tr ++ [EvComputeDelay attempt] in
    match ComputeDelay (MinDelay options) (MaxDelay options)
                       remainingTime attempt with
    | inr err => inr (Some (ErrComputingDelay err), tr)
    | inl delay =>
        (* remainingTime -= delay *)
        let remainingTime := wrap64 (remainingTime - delay) in
        let tr := tr ++ [EvSleep delay] in
        match SleepWithContext ctx delay attempt with
        | Some err => inr (Some (ErrCancelledWhileWaiting err), tr)
        | None => inl (remainingTime, tr)
        end
    end
  else inl (remainingTime, tr).

(** The [for { ... }] of the invoker; [fuel] bounds the number of
    iterations and [None] is running out of it. *)
Fixpoint waitLoop (fuel : nat) (w : WaiterClient) (ctx : Ctx)
  (options : WaiterOptions) (params : Input)
  (attempt remainingTime : Z) (tr : list event)
  : option (option (waiterError ExtErr) * list event) :=
  match fuel with
  | O => None
  | S fuel' =>
      if (remainingTime <=? 0)%Z then
        Some (Some (ErrExceededMaximumWaitTime waiterName), tr)
      else
        match backoff ctx options attempt remainingTime tr with
        | inr r => Some r
        | inl (remainingTime, tr) =>
            let tr := if LogWaitAttempts options
                      then tr ++ [EvLog (attempt + 1)] else tr in
            let '(out, err) :=
              client w ctx params (APIOptions options) attempt in
            let tr := tr ++ [EvInvoke attempt] in
            let '(retryable, err) := Retryable options params out err in
            let tr := tr ++ [EvRetryable attempt] in
            match err with
            | Some e => Some (Some e, tr)
            | None =>
                if negb retryable then Some (None, tr)
                else waitLoop fuel' w ctx options params
                              (wrap64 (attempt + 1)) remainingTime tr
            end
        end
  end.

(** [generateWaiterInvoker]: the method [Wait].  The block written
    under [if maxWaitTime == 0] is the expression statement
    [fmt.Errorf(...)]: the error is built and dropped, and control goes
    on to the next statement.  The [return] written after the [for] is
    never reached: the loop has no [break]. *)
Definition Wait (fuel : nat) (w : WaiterClient) (ctx : Ctx)
  (params : Input) (maxWaitTime : Z)
  (optFns : list (WaiterOptions -> WaiterOptions))
  : option (option (waiterError ExtErr) * list event) :=
  let _dropped : option (waiterError ExtErr) :=
    if (maxWaitTime =? 0)%Z then Some ErrMaxWaitTimeNotPositive else None in
  let options := options w in
  let options := foldl (fun o fn => fn o) options optFns in
  let attempt := 0%Z in
  let remainingTime := maxWaitTime in
  let ctx := WithDeadline ctx maxWaitTime in
  waitLoop fuel w ctx options params attempt remainingTime [].

End Generated.

Arguments writeMatchedAcceptorReturn {ExtErr} acceptor.
Arguments anyLoop {ExtErr} acceptor listOfValues expected.
Arguments writeWaiterComparator {ExtErr} acceptor comparator actual expected.
Arguments acceptorBlock {Input Output OpErr ExtErr} Search SearchInputOutput
  errorsAsModeled errorsAsAPIError operationErrors acceptor input output err.
Arguments retryableBody {Input Output OpErr ExtErr} Search SearchInputOutput
  errorsAsModeled errorsAsAPIError operationErrors acceptors input output err.
Arguments generateRetryable {Input Output OpErr ExtErr} Search
  SearchInputOutput errorsAsModeled errorsAsAPIError operationErrors waiter
  input output err.
Arguments APIOptions {Input Output OpErr ExtErr APIOption} _.
Arguments MinDelay {Input Output OpErr ExtErr APIOption} _.
Arguments MaxDelay {Input Output OpErr ExtErr APIOption} _.
Arguments LogWaitAttempts {Input Output OpErr ExtErr APIOption} _.
Arguments Retryable {Input Output OpErr ExtErr APIOption} _.
Arguments client {Input Output OpErr ExtErr Ctx APIOption} _.
Arguments options {Input Output OpErr ExtErr Ctx APIOption} _.
Arguments NewWaiter {Input Output OpErr ExtErr Ctx APIOption} Search
  SearchInputOutput errorsAsModeled errorsAsAPIError operationErrors waiter
  client optFns.
Arguments backoff {Input Output OpErr ExtErr Ctx APIOption} ComputeDelay
  SleepWithContext ctx options attempt remainingTime tr.
Arguments waitLoop {Input Output OpErr ExtErr Ctx APIOption} waiterName
  ComputeDelay SleepWithContext fuel w ctx options params attempt
  remainingTime tr.
Arguments Wait {Input Output OpErr ExtErr Ctx APIOption} waiterName
  ComputeDelay SleepWithContext WithDeadline fuel w ctx params maxWaitTime
  optFns.
End Waiters.

(** ** Sequences of registry operations and the insertion-order contract *)

Module insertion_order.
Section WithItem.
Context {Item : Type} `{ider Item}.

(** The calls of a sequence of Add/Insert/Remove. *)
Inductive op : Type :=
| OpAdd (m : Item) (pos : RelativePosition)
| OpInsert (m : Item) (relativeTo : string) (pos : RelativePosition)
| OpRemove (id : string).

(** One call on the registry. *)
Definition apply_op (g : orderedIDs.t Item) (o : op)
  : option error * orderedIDs.t Item :=
  match o with
  | OpAdd m pos => orderedIDs.Add g m pos
  | OpInsert m relativeTo pos => orderedIDs.Insert g m relativeTo pos
  | OpRemove id => orderedIDs.Remove g id
  end.

(** The calls in turn: the error of each and [List()] after it. *)
Fixpoint run (g : orderedIDs.t Item) (ops : list op)
  : list (option error * list string) :=
  match ops with
  | [] => []
  | o :: rest =>
      let '(err, g') := apply_op g o in
      (err, orderedIDs.List g') :: run g' rest
  end.

(** The contract in the specification's words, on plain lists:
    immediately before [X], immediately after [X], and deleting an
    entry. *)
Fixpoint immediately_before (X id : string) (l : list string) : list string :=
  match l with
  | [] => []
  | y :: rest =>
      if decide (y = X) then id :: y :: rest
      else y :: immediately_before X id rest
  end.

Fixpoint immediately_after (X id : string) (l : list string) : list string :=
  match l with
  | [] => []
  | y :: rest =>
      if decide (y = X) then y :: id :: rest
      else y :: immediately_after X id rest
  end.

Fixpoint without (id : string) (l : list string) : list string :=
  match l with
  | [] => []
  | y :: rest => if decide (y = id) then rest else y :: without id rest
  end.

(** Before puts the id at index 0 and After at the end; Insert puts it
    next to the anchor.  The contract says nothing of other positions. *)
Definition contract (l : list string) (o : op) : list string :=
  match o with
  | OpAdd m pos =>
      if decide (pos = Before) then ID m :: l
      else if decide (pos = After) then l ++ [ID m]
      else l
  | OpInsert m X pos =>
      if decide (pos = Before) then immediately_before X (ID m) l
      else if decide (pos = After) then immediately_after X (ID m) l
      else l
  | OpRemove id => without id l
  end.

(** A call with a new non-empty id, an anchor that is there and one of
    the two positions; a removal of an id that is there. *)
Definition permitted (l : list string) (o : op) : Prop :=
  match o with
  | OpAdd m pos =>
      empty_id (ID m) = false ∧ (ID m ∉ l) ∧ (pos = Before ∨ pos = After)
  | OpInsert m X pos =>
      empty_id (ID m) = false ∧ (ID m ∉ l) ∧
      empty_id X = false ∧ X ∈ l ∧ (pos = Before ∨ pos = After)
  | OpRemove id => empty_id id = false ∧ id ∈ l
  end.

Fixpoint permitted_seq (l : list string) (ops : list op) : Prop :=
  match ops with
  | [] => True
  | o :: rest => permitted l o ∧ permitted_seq (contract l o) rest
  end.

(** What the contract asks [run] to return. *)
Fixpoint expected (l : list string) (ops : list op)
  : list (option error * list string) :=
  match ops with
  | [] => []
  | o :: rest => (None, contract l o) :: expected (contract l o) rest
  end.

End WithItem.
Arguments op Item : clear implicits.
End insertion_order.

(** ** Registries that the exported methods can build *)

Module registry.
Section WithItem.
Context {Item : Type} `{ider Item}.

Inductive reachable : orderedIDs.t Item -> Prop :=
| reach_new : reachable orderedIDs.newOrderedIDs
| reach_Add g m pos :
    reachable g -> reachable (snd (orderedIDs.Add g m pos))
| reach_AddSlot g id pos :
    reachable g -> reachable (snd (orderedIDs.AddSlot g id pos))
| reach_Insert g m relativeTo pos :
    reachable g -> reachable (snd (orderedIDs.Insert g m relativeTo pos))
| reach_InsertSlot g id relativeTo pos :
    reachable g -> reachable (snd (orderedIDs.InsertSlot g id relativeTo pos))
| reach_Swap g id m :
    reachable g -> reachable (snd (orderedIDs.Swap g id m))
| reach_Remove g id :
    reachable g -> reachable (snd (orderedIDs.Remove g id))
| reach_Clear g :
    reachable g -> reachable (orderedIDs.Clear g).

(** A slot was reserved under a non-empty id and still holds its place. *)
Definition slots_reserved (g : orderedIDs.t Item) : Prop :=
  ∀ id, id ∈ orderedIDs.slots g ->
        empty_id id = false ∧ id ∈ relativeOrder.order (orderedIDs.order g).

End WithItem.
End registry.

(** ** Items for the examples *)

(** A middleware reduced to its id and a tag telling two items of the same
    id apart. *)
Record tagged : Type := { tag_id : string; tag : nat }.
#[global] Instance tagged_ider : ider tagged := tag_id.

(** ** Examples *)

Module examples.
Import step_deserialize.

Definition item (id : string) (n : nat) : tagged :=
  {| tag_id := id; tag := n |}.

(** [AddSlot("X", After)] on a new registry. *)
Definition slotX : orderedIDs.t tagged :=
  snd (orderedIDs.AddSlot orderedIDs.newOrderedIDs "X" After).

(** Then [Add(A, After)]. *)
Definition slotX_then_A : orderedIDs.t tagged :=
  snd (orderedIDs.Add slotX (item "A" 0) After).

(** The slot filled by [Add(X, After)]. *)
Definition filledX : orderedIDs.t tagged :=
  snd (orderedIDs.Add slotX (item "X" 0) After).

(** A sequence of calls. *)
Definition calls : list (insertion_order.op tagged) :=
  [ insertion_order.OpAdd (item "A" 0) After;
    insertion_order.OpAdd (item "B" 0) Before;
    insertion_order.OpInsert (item "C" 0) "A" Before;
    insertion_order.OpInsert (item "D" 0) "B" After;
    insertion_order.OpRemove "A" ].

(** Steps over counting stubs. *)
Definition Step : Type := DeserializeStep unit string unit string Trace.
Definition Stub : Type := DeserializeMiddleware unit string unit string Trace.

Definition newStep : Step := NewDeserializeStep.

Definition stepSlotX : Step := snd (AddSlot newStep "X" After).

Definition stubX : Stub := delegating "X".

Definition addAll (ms : list Stub) : Step :=
  foldl (fun s m => snd (Add s m After)) newStep ms.

Definition stepABC : Step :=
  addAll [delegating "A"; delegating "B"; delegating "C"].

Definition cached : DeserializeOutput string * unit * option string :=
  ({| RawResponse := None; Result := Some "cached" |}, tt, None).

Definition stepAbC : Step :=
  addAll [delegating "A"; shortCircuiting "B" cached; delegating "C"].

(** A terminal handler that records itself and answers. *)
Definition terminal : Handler unit string unit string Trace :=
  fun ctx i w => ((Some "response", tt, None), w ++ ["terminal"]).

(** A waiter whose only path matcher compares with AllStringEquals. *)
Definition allRunning : Waiters.Acceptor :=
  {| Waiters.getState := Waiters.SUCCESS;
     Waiters.getMatcher :=
       Waiters.OutputMember
         {| Waiters.getPath := "Instances[].State";
            Waiters.getExpected := "running";
            Waiters.getComparator := Waiters.ALL_STRING_EQUALS |} |}.

Definition onError : Waiters.Acceptor :=
  {| Waiters.getState := Waiters.FAILURE;
     Waiters.getMatcher := Waiters.ErrorTypeMember "Gone" |}.

(** The output is the list of states, and the path extracts it. *)
Definition search (path : string) (output : option (list string))
  : Waiters.pathValue + string :=
  match output with
  | Some l => inl (Waiters.VStrings l)
  | None => inr "nil output"
  end.

Definition searchInputOutput (path : string) (input : unit)
  (output : option (list string)) : Waiters.pathValue + string :=
  search path output.

(** Errors that unwrap to no modelled error and to no API error. *)
Definition noModeledError (err : string) (name : string) : bool := false.
Definition noAPIError (err : string) : option string := None.

Definition onSuccess : Waiters.Acceptor :=
  {| Waiters.getState := Waiters.SUCCESS;
     Waiters.getMatcher := Waiters.SuccessMember true |}.


Definition retryableBodyAt (acceptors : list Waiters.Acceptor) :=
  Waiters.retryableBody search searchInputOutput noModeledError noAPIError
    [] acceptors tt.
End examples.

(** ** Every mutating call of the registry *)

Module mutation.
Section WithItem.
Context {Item : Type} `{ider Item}.

(** The methods of [orderedIDs] that change it. *)
Inductive call : Type :=
| CallAdd (m : Item) (pos : RelativePosition)
| CallAddSlot (id : string) (pos : RelativePosition)
| CallInsert (m : Item) (relativeTo : string) (pos : RelativePosition)
| CallInsertSlot (id relativeTo : string) (pos : RelativePosition)
| CallSwap (id : string) (m : Item)
| CallRemove (id : string).

(** The error of the call and the registry after it. *)
Definition exec (g : orderedIDs.t Item) (c : call)
  : option error * orderedIDs.t Item :=
  match c with
  | CallAdd m pos => orderedIDs.Add g m pos
  | CallAddSlot id pos => orderedIDs.AddSlot g id pos
  | CallInsert m relativeTo pos => orderedIDs.Insert g m relativeTo pos
  | CallInsertSlot id relativeTo pos =>
      orderedIDs.InsertSlot g id relativeTo pos
  | CallSwap id m =>
      let '((_, err), g') := orderedIDs.Swap g id m in (err, g')
  | CallRemove id => orderedIDs.Remove g id
  end.

End WithItem.
Arguments call Item : clear implicits.
End mutation.

(** ** What the methods keep true of a registry *)

Module invariant.
Section WithItem.
Context {Item : Type} `{ider Item}.

(** No id occurs twice in the order and none is empty; every slot has a
    place in the order; every item is bound under its own id, which has a
    place in the order; every id of the order is a slot or is bound. *)
Record well_formed (g : orderedIDs.t Item) : Prop := {
  wf_unique : NoDup (relativeOrder.order (orderedIDs.order g));
  wf_nonempty :
    ∀ id, id ∈ relativeOrder.order (orderedIDs.order g) -> empty_id id = false;
  wf_slots :
    ∀ id, id ∈ orderedIDs.slots g ->
          id ∈ relativeOrder.order (orderedIDs.order g);
  wf_items :
    ∀ id m, orderedIDs.items g !! id = Some m ->
            ID m = id ∧ id ∈ relativeOrder.order (orderedIDs.order g);
  wf_covered :
    ∀ id, id ∈ relativeOrder.order (orderedIDs.order g) ->
          id ∈ orderedIDs.slots g ∨ is_Some (orderedIDs.items g !! id)
}.

End WithItem.
End invariant.

(** ** Dynamic types and matcher kinds of the generated waiters *)

Module waiter_kinds.
Import Waiters.

(** The dynamic type that the type assertion of a comparator accepts:
    [string], [bool], [[]string]. *)
Definition asserted (comparator : PathComparator) (actual : pathValue) : bool :=
  match comparator, actual with
  | STRING_EQUALS, VString _ => true
  | BOOLEAN_EQUALS, VBool _ => true
  | ALL_STRING_EQUALS, VStrings _ => true
  | ANY_STRING_EQUALS, VStrings _ => true
  | _, _ => false
  end.

(** The matcher member is ["errorType"]. *)
Definition is_errorType (matcher : Matcher) : bool :=
  match matcher with
  | ErrorTypeMember _ => true
  | _ => false
  end.

(** The two errors that are written by the generator and that no path of
    the invoker returns: the one under [if maxWaitTime == 0] and the one
    after the loop. *)
Definition is_dead_error {ExtErr : Type} (e : waiterError ExtErr) : bool :=
  match e with
  | ErrMaxWaitTimeNotPositive => true
  | ErrExceededMaxWaitTime _ => true
  | _ => false
  end.

End waiter_kinds.

(** ** The Java classes of the code generator *)

(** What a Java method leaves behind: a value, or an exception of the
    given class with its message. *)
Inductive completion (A : Type) : Type :=
| Normal (a : A)
| Throws (exception message : string).
Arguments Normal {A} a.
Arguments Throws {A} exception message.

(** [ConfigField.java] *)
Module ConfigField.
Section WithSymbol.
(** [software.amazon.smithy.codegen.core.Symbol] *)
Variable Symbol : Type.

(** [public class ConfigField]: [name] and [type] are not null once
    constructed, [documentation] may be. *)
Record t : Type := mk {
  name : string;
  type : Symbol;
  documentation : option string
}.

(** [public static class Builder]: every field starts as null. *)
Record Builder : Type := mkBuilder {
  builder_name : option string;
  builder_type : option Symbol;
  builder_documentation : option string
}.

(** [public static Builder builder()] *)
Definition builder : Builder := mkBuilder None None None.

(** [public Builder name(String name)] *)
Definition set_name (b : Builder) (name : option string) : Builder :=
  mkBuilder name (builder_type b) (builder_documentation b).

(** [public Builder type(Symbol type)] *)
Definition set_type (b : Builder) (type : option Symbol) : Builder :=
  mkBuilder (builder_name b) type (builder_documentation b).

(** [public Builder documentation(String documentation)] *)
Definition set_documentation (b : Builder) (documentation : option string)
  : Builder :=
  mkBuilder (builder_name b) (builder_type b) documentation.

(** [public ConfigField(Builder builder)]: the two [Objects.requireNonNull]
    in turn. *)
Definition new (b : Builder) : completion t :=
  match builder_name b with
  | None => Throws "NullPointerException" ""
  | Some name =>
      match builder_type b with
      | None => Throws "NullPointerException" ""
      | Some type => Normal (mk name type (builder_documentation b))
      end
  end.

(** [public ConfigField build()] of the builder *)
Definition build (b : Builder) : completion t := new b.

(** [public String getName()], [public Symbol getType()] *)
Definition getName (c : t) : string := name c.
Definition getType (c : t) : Symbol := type c.

(** [public Optional<String> getDocumentation()] *)
Definition getDocumentation (c : t) : option string := documentation c.

(** [public SmithyBuilder<ConfigField> toBuilder()] *)
Definition toBuilder (c : t) : Builder :=
  set_documentation
    (set_name (set_type builder (Some (type c))) (Some (name c)))
    (documentation c).

(** The JDK's [String.compareTo]: the difference of the first two
    characters that differ, else the difference of the lengths.  The
    characters are those of the ASCII names of config fields. *)
Fixpoint String_compareTo_from (a b : string) (len1 len2 : Z) : Z :=
  match a, b with
  | String c1 a', String c2 b' =>
      if bool_decide (c1 = c2) then String_compareTo_from a' b' len1 len2
      else (Z.of_N (Ascii.N_of_ascii c1) - Z.of_N (Ascii.N_of_ascii c2))%Z
  | _, _ => (len1 - len2)%Z
  end.

Definition String_compareTo (a b : string) : Z :=
  String_compareTo_from a b
    (Z.of_nat (String.length a)) (Z.of_nat (String.length b)).

(** [public int compareTo(ConfigField o)] *)
Definition compareTo (c o : t) : Z := String_compareTo (getName c) (getName o).

(** [public boolean equals(Object o)], for [o] null or a [ConfigField] *)
Definition equals (c : t) (o : option t) : bool :=
  match o with
  | None => false
  | Some that => bool_decide (name c = name that)
  end.

End WithSymbol.
Arguments name {Symbol} _.
Arguments type {Symbol} _.
Arguments documentation {Symbol} _.
Arguments builder {Symbol}.
Arguments set_name {Symbol} b name.
Arguments set_type {Symbol} b type.
Arguments set_documentation {Symbol} b documentation.
Arguments new {Symbol} b.
Arguments build {Symbol} b.
Arguments getName {Symbol} c.
Arguments getType {Symbol} c.
Arguments getDocumentation {Symbol} c.
Arguments toBuilder {Symbol} c.
Arguments compareTo {Symbol} c o.
Arguments equals {Symbol} c o.
End ConfigField.

(** [OperationInterfaceGenerator.java] *)
Module OperationInterfaceGenerator.

(** An operation of the model: its shape id and whether it has the
    paginated and the waitable trait. *)
Record OperationShape : Type := {
  getId : string;
  hasPaginatedTrait : bool;
  hasWaitableTrait : bool
}.

(** [operations.forEach(operationShape -> set.add(operationShape.getId()))] *)
Definition addIds (operations : list OperationShape) (set : gset string)
  : gset string :=
  foldl (fun acc operation => {[getId operation]} ∪ acc) set operations.

(** [public void processFinalizedModel(settings, model)].  The static
    field [listOfClientInterfaceOperations] is passed in and returned;
    [servicePaginated] is [serviceShape.hasTrait(PaginatedTrait.class)]
    and [operations] is [topDownIndex.getContainedOperations(serviceShape)]. *)
Definition processFinalizedModel (listOfClientInterfaceOperations : gset string)
  (servicePaginated : bool) (operations : list OperationShape)
  : completion unit * gset string :=
  (* operations for which paginated trait is applied *)
  let set := addIds (List.filter hasPaginatedTrait operations)
                    listOfClientInterfaceOperations in
  let set := if servicePaginated then addIds operations set else set in
  (* operations for which waitable trait is applied *)
  let set := addIds (List.filter hasWaitableTrait operations) set in
  if bool_decide (set = ∅)
  then (Throws "CodegenException" "empty operations", set)
  else (Normal tt, set).

(** [public static String getApiClientInterfaceName(Symbol operationSymbol)] *)
Definition getApiClientInterfaceName (operationName : string) : string :=
  (operationName ++ "APIClient")%string.

End OperationInterfaceGenerator.

(** ** A waiter for the examples *)

Module scenarios.
Import examples.

(** Waits until every instance is running: delays of 2 to 120 seconds. *)
Definition instanceRunning : Waiters.Waiter :=
  {| Waiters.getMinDelay := 2;
     Waiters.getMaxDelay := 120;
     Waiters.getAcceptors := [allRunning; onError] |}.

(** An operation that answers with two running instances. *)
Definition describe (ctx : unit) (params : unit) (apiOptions : list unit)
  (attempt : Z) : option (list string) * option string :=
  (Some ["running"; "running"], None).

(** The waiter client with the generated defaults. *)
Definition waiterClient
  : Waiters.WaiterClient unit (list string) string string unit unit :=
  Waiters.NewWaiter search searchInputOutput noModeledError noAPIError []
    instanceRunning describe [].

(** Collaborators: a delay of one second whatever is asked, a sleep that
    is never cancelled, a context that is left as it is. *)
Definition oneSecond (minDelay maxDelay remainingTime attempt : Z)
  : Z + string := inl Waiters.Second.
Definition sleepThrough (ctx : unit) (delay attempt : Z) : option string :=
  None.
Definition sameContext (ctx : unit) (maxWaitTime : Z) : unit := ctx.

Definition wait (fuel : nat) (maxWaitTime : Z) :=
  Waiters.Wait "InstanceRunning" oneSecond sleepThrough sameContext
    fuel waiterClient tt tt maxWaitTime [].

End scenarios.

(** * Properties

    ** Slices and the linear scan *)

Lemma copy_same_length {A : Type} (dst src : list A) :
  length dst = length src -> copy dst src = src.
Proof.
  intros E. unfold copy. rewrite E, firstn_all.
  rewrite <- E, drop_all. apply app_nil_r.
Qed.

Lemma shift_right_set {A : Type} (l : list A) (x id : A) (i : nat) :
  (i ≤ length l)%nat ->
  <[i := id]> (take (S i) (l ++ [x]) ++ copy (drop (S i) (l ++ [x])) (drop i (l ++ [x])))
  = take i l ++ id :: drop i l.
Proof.
  intros Hi. unfold copy.
  rewrite !length_drop, length_app. simpl.
  rewrite (drop_ge (drop (S i) (l ++ [x])))
    by (rewrite length_drop, length_app; simpl; lia).
  rewrite app_nil_r, (drop_app_le l [x] i) by lia.
  rewrite (take_app_length' (drop i l) [x]) by (rewrite length_drop; lia).
  destruct (lookup_lt_is_Some_2 (l ++ [x]) i) as [y Hy];
    [rewrite length_app; simpl; lia|].
  rewrite (take_S_r _ _ _ Hy), (take_app_le l [x] i) by lia.
  rewrite <- app_assoc.
  rewrite insert_app_r_alt by (rewrite length_take; lia).
  rewrite length_take.
  by replace (i - i `min` length l)%nat with 0%nat by lia.
Qed.

Lemma scan_absent (l : list string) (id : string) (i : nat) :
  id ∉ l -> relativeOrder.scan i l id = (0%nat, false).
Proof.
  revert i. induction l as [|x l IH]; intros i Hn; simpl; [done|].
  apply not_elem_of_cons in Hn as [Hx Hl].
  destruct (decide (x = id)); [congruence|]. by apply IH.
Qed.

Lemma scan_present (l1 l2 : list string) (id : string) (i : nat) :
  id ∉ l1 -> relativeOrder.scan i (l1 ++ id :: l2) id = ((i + length l1)%nat, true).
Proof.
  revert i. induction l1 as [|x l1 IH]; intros i Hn; simpl.
  - destruct (decide (id = id)); [|done]. f_equal. lia.
  - apply not_elem_of_cons in Hn as [Hx Hl].
    destruct (decide (x = id)); [congruence|].
    rewrite IH by done. f_equal. lia.
Qed.

Lemma first_occurrence (l : list string) (id : string) :
  id ∈ l -> ∃ l1 l2, l = l1 ++ id :: l2 ∧ id ∉ l1.
Proof.
  induction l as [|x l IH]; intros Hin; [by apply elem_of_nil in Hin|].
  destruct (decide (x = id)) as [->|Hne].
  - exists [], l. split; [done|]. apply not_elem_of_nil.
  - apply elem_of_cons in Hin as [->|Hin]; [done|].
    destruct (IH Hin) as (l1 & l2 & -> & Hn).
    exists (x :: l1), l2. split; [done|].
    apply not_elem_of_cons. split; [congruence|done].
Qed.

Lemma has_found (s : relativeOrder.t) (id : string) :
  snd (relativeOrder.has s id) = bool_decide (id ∈ relativeOrder.order s).
Proof.
  unfold relativeOrder.has. case_bool_decide as Hin.
  - destruct (first_occurrence _ _ Hin) as (l1 & l2 & -> & Hn).
    by rewrite scan_present.
  - by rewrite scan_absent.
Qed.

Lemma has_present (l1 l2 : list string) (id : string) :
  id ∉ l1 ->
  relativeOrder.has (relativeOrder.mk (l1 ++ id :: l2)) id = (length l1, true).
Proof. intros Hn. unfold relativeOrder.has. simpl. by rewrite scan_present. Qed.

Lemma has_absent (s : relativeOrder.t) (id : string) :
  id ∉ relativeOrder.order s -> relativeOrder.has s id = (0%nat, false).
Proof. intros Hn. unfold relativeOrder.has. by apply scan_absent. Qed.

Lemma insert_Before (l : list string) (i : nat) (id : string) :
  (i ≤ length l)%nat ->
  relativeOrder.insert (relativeOrder.mk l) i id Before
  = (None, relativeOrder.mk (take i l ++ id :: drop i l)).
Proof.
  intros Hi. unfold relativeOrder.insert. simpl.
  destruct (decide (Before = Before)); [|done].
  by rewrite shift_right_set.
Qed.

Lemma insert_After (l : list string) (i : nat) (id : string) :
  (i < length l)%nat ->
  relativeOrder.insert (relativeOrder.mk l) i id After
  = (None, relativeOrder.mk (take (S i) l ++ id :: drop (S i) l)).
Proof.
  intros Hi. unfold relativeOrder.insert. simpl.
  destruct (decide (After = Before)); [done|].
  destruct (decide (After = After)); [|done].
  destruct (decide _) as [E|E]; [|done].
  by rewrite take_ge, drop_ge by lia.
Qed.

Lemma Add_Before (s : relativeOrder.t) (id : string) :
  id ∉ relativeOrder.order s ->
  relativeOrder.Add s id Before
  = (None, relativeOrder.mk (id :: relativeOrder.order s)).
Proof.
  intros Hn. unfold relativeOrder.Add. rewrite has_absent by done. simpl.
  destruct (decide (Before = Before)); [|done].
  destruct s as [l]. rewrite insert_Before by lia. done.
Qed.

Lemma Add_After (s : relativeOrder.t) (id : string) :
  id ∉ relativeOrder.order s ->
  relativeOrder.Add s id After
  = (None, relativeOrder.mk (relativeOrder.order s ++ [id])).
Proof.
  intros Hn. unfold relativeOrder.Add. rewrite has_absent by done. simpl.
  destruct (decide (After = Before)); [done|].
  by destruct (decide (After = After)).
Qed.

Lemma Add_present (s : relativeOrder.t) (id : string) (pos : RelativePosition) :
  id ∈ relativeOrder.order s ->
  relativeOrder.Add s id pos = (Some (ErrAlreadyExists id), s).
Proof.
  intros Hin. unfold relativeOrder.Add.
  by rewrite has_found, bool_decide_eq_true_2.
Qed.

Lemma Add_absent_not_duplicate (s : relativeOrder.t) (id : string)
  (pos : RelativePosition) :
  id ∉ relativeOrder.order s ->
  is_duplicate (fst (relativeOrder.Add s id pos)) = false.
Proof.
  intros Hn. unfold relativeOrder.Add. rewrite has_absent by done. simpl.
  destruct (decide (pos = Before)) as [->|].
  - destruct s as [l]. by rewrite insert_Before by lia.
  - by destruct (decide (pos = After)).
Qed.

Lemma Insert_Before (l1 l2 : list string) (id X : string) :
  id ∉ l1 ++ X :: l2 -> X ∉ l1 ->
  relativeOrder.Insert (relativeOrder.mk (l1 ++ X :: l2)) id X Before
  = (None, relativeOrder.mk (l1 ++ id :: X :: l2)).
Proof.
  intros Hid HX. unfold relativeOrder.Insert.
  rewrite has_absent by done. simpl.
  rewrite has_present by done. simpl.
  rewrite insert_Before by (rewrite length_app; simpl; lia).
  by rewrite take_app_length, drop_app_length.
Qed.

Lemma Insert_After (l1 l2 : list string) (id X : string) :
  id ∉ l1 ++ X :: l2 -> X ∉ l1 ->
  relativeOrder.Insert (relativeOrder.mk (l1 ++ X :: l2)) id X After
  = (None, relativeOrder.mk (l1 ++ X :: id :: l2)).
Proof.
  intros Hid HX. unfold relativeOrder.Insert.
  rewrite has_absent by done. simpl.
  rewrite has_present by done. simpl.
  rewrite insert_After by (rewrite length_app; simpl; lia).
  rewrite (cons_middle X l1 l2), app_assoc.
  rewrite take_app_length', drop_app_length' by (rewrite length_app; simpl; lia).
  by rewrite <- app_assoc.
Qed.

Lemma Remove_present (l1 l2 : list string) (id : string) :
  id ∉ l1 ->
  relativeOrder.Remove (relativeOrder.mk (l1 ++ id :: l2)) id
  = (None, relativeOrder.mk (l1 ++ l2)).
Proof.
  intros Hn. unfold relativeOrder.Remove. rewrite has_present by done. simpl.
  rewrite take_app_length.
  rewrite (cons_middle id l1 l2), app_assoc.
  by rewrite drop_app_length' by (rewrite length_app; simpl; lia).
Qed.

Lemma Swap_present (l1 l2 : list string) (id to : string) :
  id ∉ l1 -> to ∉ l1 ++ id :: l2 ∨ to = id ->
  relativeOrder.Swap (relativeOrder.mk (l1 ++ id :: l2)) id to
  = (None, relativeOrder.mk (l1 ++ to :: l2)).
Proof.
  intros Hn Hto. unfold relativeOrder.Swap. rewrite has_present by done. simpl.
  assert (snd (relativeOrder.has (relativeOrder.mk (l1 ++ id :: l2)) to)
          && negb (bool_decide (id = to)) = false) as ->.
  { destruct Hto as [Hto| ->].
    - by rewrite has_absent.
    - rewrite bool_decide_eq_true_2 by done. apply andb_false_r. }
  rewrite insert_app_r_alt by lia.
  by rewrite Nat.sub_diag.
Qed.

Section registry_facts.
Context {Item : Type} `{ider Item}.

Lemma List_order (g : orderedIDs.t Item) :
  orderedIDs.List g = relativeOrder.order (orderedIDs.order g).
Proof.
  unfold orderedIDs.List, relativeOrder.List.
  apply copy_same_length. by rewrite length_replicate.
Qed.

Lemma with_order_same (g : orderedIDs.t Item) :
  orderedIDs.with_order g (orderedIDs.order g) = g.
Proof. by destruct g. Qed.

Lemma IsSlot_true (g : orderedIDs.t Item) (id : string) :
  orderedIDs.IsSlot g id = true ↔ id ∈ orderedIDs.slots g.
Proof. unfold orderedIDs.IsSlot. apply bool_decide_eq_true. Qed.

Lemma IsSlot_false (g : orderedIDs.t Item) (id : string) :
  orderedIDs.IsSlot g id = false ↔ id ∉ orderedIDs.slots g.
Proof. unfold orderedIDs.IsSlot. apply bool_decide_eq_false. Qed.
End registry_facts.

(** Shapes of the results. *)
Lemma Add_cases (s : relativeOrder.t) (id : string) (pos : RelativePosition) :
  (∃ e, relativeOrder.Add s id pos = (Some e, s)) ∨
  ((id ∉ relativeOrder.order s) ∧
   (relativeOrder.Add s id pos = (None, relativeOrder.mk (id :: relativeOrder.order s)) ∨
    relativeOrder.Add s id pos = (None, relativeOrder.mk (relativeOrder.order s ++ [id])))).
Proof.
  destruct (decide (id ∈ relativeOrder.order s)) as [Hin|Hn].
  - left. eexists. by apply Add_present.
  - destruct (decide (pos = Before)) as [->|Hb].
    { right. split; [done|]. left. by apply Add_Before. }
    destruct (decide (pos = After)) as [->|Ha].
    { right. split; [done|]. right. by apply Add_After. }
    left. exists (ErrInvalidPosition pos). unfold relativeOrder.Add.
    rewrite has_absent by done. simpl.
    destruct (decide (pos = Before)); [done|].
    by destruct (decide (pos = After)).
Qed.

Lemma Insert_cases (s : relativeOrder.t) (id X : string) (pos : RelativePosition) :
  (∃ e, relativeOrder.Insert s id X pos = (Some e, s)) ∨
  (∃ l1 l2, relativeOrder.order s = l1 ++ X :: l2 ∧ (id ∉ relativeOrder.order s) ∧
     (relativeOrder.Insert s id X pos = (None, relativeOrder.mk (l1 ++ id :: X :: l2)) ∨
      relativeOrder.Insert s id X pos = (None, relativeOrder.mk (l1 ++ X :: id :: l2)))).
Proof.
  destruct s as [l].
  destruct (decide (id ∈ l)) as [Hin|Hn].
  { left. exists (ErrAlreadyExists id). unfold relativeOrder.Insert.
    by rewrite has_found, bool_decide_eq_true_2. }
  destruct (decide (X ∈ l)) as [HX|HX].
  - destruct (first_occurrence _ _ HX) as (l1 & l2 & -> & Hl1).
    destruct (decide (pos = Before)) as [->|Hb].
    { right. exists l1, l2. split; [done|]. split; [done|]. left.
      by apply Insert_Before. }
    destruct (decide (pos = After)) as [->|Ha].
    { right. exists l1, l2. split; [done|]. split; [done|]. right.
      by apply Insert_After. }
    left. exists (ErrInvalidPosition pos). unfold relativeOrder.Insert.
    rewrite has_absent by done. simpl. rewrite has_present by done. simpl.
    unfold relativeOrder.insert.
    destruct (decide (pos = Before)); [done|].
    by destruct (decide (pos = After)).
  - left. exists (ErrNotFound X). unfold relativeOrder.Insert.
    rewrite has_absent by done. simpl. by rewrite has_absent.
Qed.

Lemma Swap_cases (s : relativeOrder.t) (id to : string) :
  (∃ e, relativeOrder.Swap s id to = (Some e, s)) ∨
  (∃ l1 l2, relativeOrder.order s = l1 ++ id :: l2 ∧ (id ∉ l1) ∧
     (to ∉ relativeOrder.order s ∨ to = id) ∧
     relativeOrder.Swap s id to = (None, relativeOrder.mk (l1 ++ to :: l2))).
Proof.
  destruct s as [l].
  destruct (decide (id ∈ l)) as [Hin|Hn].
  - destruct (first_occurrence _ _ Hin) as (l1 & l2 & -> & Hl1).
    destruct (decide (to = id)) as [->|Hne].
    { right. exists l1, l2. repeat split; [done|by right|].
      apply Swap_present; [done|by right]. }
    destruct (decide (to ∈ l1 ++ id :: l2)) as [Hto|Hto].
    + left. exists (ErrAlreadyExists to). unfold relativeOrder.Swap.
      rewrite has_present by done. simpl.
      rewrite has_found, bool_decide_eq_true_2 by done.
      by rewrite bool_decide_eq_false_2 by congruence.
    + right. exists l1, l2. repeat split; [done|by left|].
      apply Swap_present; [done|by left].
  - left. exists (ErrNotFound id). unfold relativeOrder.Swap.
    by rewrite has_absent.
Qed.

Lemma Remove_cases (s : relativeOrder.t) (id : string) :
  ((id ∉ relativeOrder.order s) ∧
   relativeOrder.Remove s id = (Some (ErrNotFound id), s)) ∨
  (∃ l1 l2, relativeOrder.order s = l1 ++ id :: l2 ∧ (id ∉ l1) ∧
     relativeOrder.Remove s id = (None, relativeOrder.mk (l1 ++ l2))).
Proof.
  destruct s as [l].
  destruct (decide (id ∈ l)) as [Hin|Hn].
  - destruct (first_occurrence _ _ Hin) as (l1 & l2 & -> & Hl1).
    right. exists l1, l2. repeat split; [done|]. by apply Remove_present.
  - left. split; [done|]. unfold relativeOrder.Remove. by rewrite has_absent.
Qed.

(** ** The slots of a reachable registry *)

(** Membership in lists built with [++] and [::]. *)
Ltac list_mem :=
  repeat match goal with
         | Hm : _ ∈ _ ++ _ |- _ => apply elem_of_app in Hm
         | Hm : _ ∈ _ :: _ |- _ => apply elem_of_cons in Hm
         | Hm : _ ∨ _ |- _ => destruct Hm
         end;
  subst; simpl; rewrite ?elem_of_app, ?elem_of_cons;
  solve [intuition congruence].

Section slots.
Context {Item : Type} `{ider Item}.
Implicit Types g : orderedIDs.t Item.

Lemma reserved_new : registry.slots_reserved (@orderedIDs.newOrderedIDs Item).
Proof. intros id Hid. simpl in Hid. by apply elem_of_empty in Hid. Qed.

Lemma reserved_Add g m pos :
  registry.slots_reserved g ->
  registry.slots_reserved (snd (orderedIDs.Add g m pos)).
Proof.
  intros Hg. unfold orderedIDs.Add.
  destruct (empty_id (ID m)); [done|].
  destruct (orderedIDs.IsSlot g (ID m)); simpl.
  { intros id Hid. apply (Hg id Hid). }
  destruct (Add_cases (orderedIDs.order g) (ID m) pos)
    as [[e ->]|[_ [-> | ->]]]; simpl; intros id Hid;
    destruct (Hg id Hid) as [Hne Hin]; (split; [done|]); simpl;
    [done|by right|].
  apply elem_of_app. by left.
Qed.

Lemma reserved_AddSlot g id pos :
  registry.slots_reserved g ->
  registry.slots_reserved (snd (orderedIDs.AddSlot g id pos)).
Proof.
  intros Hg. unfold orderedIDs.AddSlot.
  destruct (empty_id id) eqn:Hid; [done|].
  destruct (Add_cases (orderedIDs.order g) id pos)
    as [[e ->]|[_ [-> | ->]]]; simpl; intros x Hx; simpl in Hx.
  - apply (Hg x Hx).
  - apply elem_of_union in Hx as [->%elem_of_singleton|Hx];
      [split; [done|left]|].
    destruct (Hg x Hx) as [? ?]. split; [done|by right].
  - apply elem_of_union in Hx as [->%elem_of_singleton|Hx];
      [split; [done|list_mem]|].
    destruct (Hg x Hx) as [? ?]. split; [done|list_mem].
Qed.

Lemma reserved_Insert g m X pos :
  registry.slots_reserved g ->
  registry.slots_reserved (snd (orderedIDs.Insert g m X pos)).
Proof.
  intros Hg. unfold orderedIDs.Insert.
  destruct (empty_id (ID m)); [done|].
  destruct (empty_id X); [done|].
  destruct (Insert_cases (orderedIDs.order g) (ID m) X pos)
    as [[e ->]|(l1 & l2 & Hl & _ & [-> | ->])]; simpl; intros x Hx;
    destruct (Hg x Hx) as [Hne Hin]; (split; [done|]); simpl;
    [done| |]; rewrite Hl in Hin; list_mem.
Qed.

Lemma reserved_InsertSlot g id X pos :
  registry.slots_reserved g ->
  registry.slots_reserved (snd (orderedIDs.InsertSlot g id X pos)).
Proof.
  intros Hg. unfold orderedIDs.InsertSlot.
  destruct (empty_id id) eqn:Hid; [done|].
  destruct (empty_id X); [done|].
  destruct (Insert_cases (orderedIDs.order g) id X pos)
    as [[e ->]|(l1 & l2 & Hl & _ & [-> | ->])]; simpl; intros x Hx;
    simpl in Hx.
  - apply (Hg x Hx).
  - apply elem_of_union in Hx as [->%elem_of_singleton|Hx];
      [split; [done|list_mem]|].
    destruct (Hg x Hx) as [? Hin]. split; [done|].
    rewrite Hl in Hin. list_mem.
  - apply elem_of_union in Hx as [->%elem_of_singleton|Hx];
      [split; [done|list_mem]|].
    destruct (Hg x Hx) as [? Hin]. split; [done|].
    rewrite Hl in Hin. list_mem.
Qed.

Lemma reserved_Swap g id m :
  registry.slots_reserved g ->
  registry.slots_reserved (snd (orderedIDs.Swap g id m)).
Proof.
  intros Hg. unfold orderedIDs.Swap.
  destruct (empty_id id); [done|].
  destruct (empty_id (ID m)); [done|].
  destruct (orderedIDs.IsSlot g id && negb (bool_decide (id = ID m))) eqn:E;
    [done|].
  destruct (Swap_cases (orderedIDs.order g) id (ID m))
    as [[e ->]|(l1 & l2 & Hl & _ & _ & ->)]; simpl; intros x Hx.
  - apply (Hg x Hx).
  - destruct (Hg x Hx) as [Hne Hin]. split; [done|]. simpl.
    rewrite Hl in Hin.
    destruct (decide (x = id)) as [->|Hxid]; [|list_mem].
    apply andb_false_iff in E as [E|E].
    + apply IsSlot_false in E. done.
    + apply negb_false_iff, bool_decide_eq_true in E. rewrite <- E.
      list_mem.
Qed.

Lemma reserved_Remove g id :
  registry.slots_reserved g ->
  registry.slots_reserved (snd (orderedIDs.Remove g id)).
Proof.
  intros Hg. unfold orderedIDs.Remove.
  destruct (empty_id id); [done|].
  destruct (orderedIDs.IsSlot g id) eqn:E; simpl.
  { intros x Hx. apply (Hg x Hx). }
  apply IsSlot_false in E.
  destruct (Remove_cases (orderedIDs.order g) id)
    as [[_ ->]|(l1 & l2 & Hl & _ & ->)]; simpl; intros x Hx.
  - apply (Hg x Hx).
  - destruct (Hg x Hx) as [Hne Hin]. split; [done|]. simpl.
    rewrite Hl in Hin.
    assert (x ≠ id) by (intros ->; done). list_mem.
Qed.

Lemma reachable_reserved g :
  registry.reachable g -> registry.slots_reserved g.
Proof.
  induction 1;
    eauto using reserved_new, reserved_Add, reserved_AddSlot,
      reserved_Insert, reserved_InsertSlot, reserved_Swap, reserved_Remove.
Qed.
End slots.

Section registry_properties.
Context {Item : Type} `{ider Item}.
Implicit Types g : orderedIDs.t Item.

(** What [orderedIDs.Add] does when the id is not a slot. *)
Lemma Add_not_slot g m pos :
  empty_id (ID m) = false -> orderedIDs.IsSlot g (ID m) = false ->
  orderedIDs.Add g m pos =
    let '(err, o) := relativeOrder.Add (orderedIDs.order g) (ID m) pos in
    match err with
    | Some e => (Some e, orderedIDs.with_order g o)
    | None =>
        (None, orderedIDs.mk o (<[ID m := m]> (orderedIDs.items g))
                             (orderedIDs.slots g))
    end.
Proof.
  intros Hne Hs. unfold orderedIDs.Add. rewrite Hne, Hs. simpl.
  destruct (relativeOrder.Add _ _ _) as [[e|] o]; done.
Qed.

(** What [orderedIDs.Add] does when the id is a slot. *)
Lemma Add_slot g m pos :
  empty_id (ID m) = false -> orderedIDs.IsSlot g (ID m) = true ->
  orderedIDs.Add g m pos =
    (None, orderedIDs.with_items g (<[ID m := m]> (orderedIDs.items g))).
Proof. intros Hne Hs. unfold orderedIDs.Add. by rewrite Hne, Hs. Qed.

(** C5.  Adding an item whose id is already in the order, and is not a
    slot, returns an error and leaves the registry exactly as it was:
    [List()], the item bindings and the slot set are those of before. *)
Theorem Add_duplicate_leaves_registry g m pos :
  ID m ∈ orderedIDs.List g -> orderedIDs.IsSlot g (ID m) = false ->
  ∃ e g', orderedIDs.Add g m pos = (Some e, g') ∧ g' = g ∧
          orderedIDs.List g' = orderedIDs.List g ∧
          orderedIDs.items g' = orderedIDs.items g ∧
          orderedIDs.slots g' = orderedIDs.slots g.
Proof.
  intros Hin Hs. rewrite List_order in Hin.
  destruct (empty_id (ID m)) eqn:Hne.
  - exists ErrEmptyID, g. unfold orderedIDs.Add. by rewrite Hne.
  - exists (ErrAlreadyExists (ID m)), g.
    rewrite Add_not_slot, Add_present by done.
    by rewrite with_order_same.
Qed.

(** C10.  On a registry built by the exported methods, [Add] returns the
    duplicate-id error exactly when the item's id is not empty, is in the
    order and is not a slot; and [Add] with the id of a slot succeeds
    whatever the position and whatever the slot holds: [List()] is
    unchanged and the id is bound to the new item. *)
Theorem Add_duplicate_iff_not_slot g m pos :
  registry.reachable g ->
  (is_duplicate (fst (orderedIDs.Add g m pos)) = true ↔
     empty_id (ID m) = false ∧ ID m ∈ orderedIDs.List g ∧
     orderedIDs.IsSlot g (ID m) = false)
  ∧ (orderedIDs.IsSlot g (ID m) = true ->
     ∃ g', orderedIDs.Add g m pos = (None, g') ∧
           orderedIDs.List g' = orderedIDs.List g ∧
           orderedIDs.items g' = <[ID m := m]> (orderedIDs.items g) ∧
           orderedIDs.slots g' = orderedIDs.slots g ∧
           orderedIDs.Get g' (ID m) = Some m).
Proof.
  intros Hr. split.
  - rewrite List_order. split.
    + intros Hd. destruct (empty_id (ID m)) eqn:Hne.
      { unfold orderedIDs.Add in Hd. by rewrite Hne in Hd. }
      destruct (orderedIDs.IsSlot g (ID m)) eqn:Hs.
      { by rewrite Add_slot in Hd. }
      split; [done|]. split; [|done].
      destruct (decide (ID m ∈ relativeOrder.order (orderedIDs.order g)))
        as [|Hn]; [done|].
      rewrite Add_not_slot in Hd by done.
      pose proof (Add_absent_not_duplicate _ _ pos Hn) as Hnd.
      destruct (relativeOrder.Add _ _ _) as [[e|] o]; simpl in *; congruence.
    + intros (Hne & Hin & Hs).
      by rewrite Add_not_slot, Add_present.
  - intros Hs.
    destruct (reachable_reserved g Hr (ID m)) as [Hne _];
      [by apply IsSlot_true|].
    eexists. rewrite Add_slot by done. repeat split.
    unfold orderedIDs.Get. simpl. apply lookup_insert_eq.
Qed.

(** C3, as the code has it.  [Remove] of a slot that returns
    successfully leaves the order and the slot set alone, so the id keeps
    its place in [List()]; only the binding goes.  A later [Add] of the
    same id succeeds whatever its position and again leaves [List()]
    alone: the item sits where the slot was reserved. *)
Theorem Remove_slot_keeps_position g id g' :
  orderedIDs.IsSlot g id = true ->
  orderedIDs.Remove g id = (None, g') ->
  orderedIDs.List g' = orderedIDs.List g ∧
  orderedIDs.slots g' = orderedIDs.slots g ∧
  orderedIDs.items g' = delete id (orderedIDs.items g) ∧
  ∀ m pos, ID m = id ->
    ∃ g'', orderedIDs.Add g' m pos = (None, g'') ∧
           orderedIDs.List g'' = orderedIDs.List g ∧
           orderedIDs.Get g'' id = Some m.
Proof.
  intros Hs Hr. unfold orderedIDs.Remove in Hr.
  destruct (empty_id id) eqn:Hne; [done|].
  rewrite Hs in Hr. simpl in Hr. injection Hr as <-.
  repeat split. intros m pos <-.
  eexists. rewrite Add_slot by done. repeat split.
  unfold orderedIDs.Get. simpl. apply lookup_insert_eq.
Qed.

(** On a registry built by the exported methods, [orderedIDs.Swap] of a
    slot that was never filled, with an item of the same id, succeeds;
    the previously bound item it returns is [nil]; [List()] and the slots
    are unchanged and the id is bound to the item. *)
Theorem Swap_unfilled_slot g id m :
  registry.reachable g ->
  orderedIDs.IsSlot g id = true ->
  orderedIDs.items g !! id = None ->
  ID m = id ->
  ∃ g', orderedIDs.Swap g id m = ((None, None), g') ∧
        orderedIDs.List g' = orderedIDs.List g ∧
        orderedIDs.items g' = <[id := m]> (orderedIDs.items g) ∧
        orderedIDs.slots g' = orderedIDs.slots g.
Proof.
  intros Hr Hs Hnone <-.
  destruct (reachable_reserved g Hr (ID m)) as [Hne Hin];
    [by apply IsSlot_true|].
  unfold orderedIDs.Swap. rewrite Hne, Hs.
  rewrite bool_decide_eq_true_2 by done. simpl.
  destruct (first_occurrence _ _ Hin) as (l1 & l2 & Hl & Hl1).
  destruct g as [[l] its sl]. simpl in *. subst l.
  rewrite Swap_present by (done || by right). simpl.
  rewrite Hnone. eexists. split; [done|].
  rewrite !List_order. simpl. repeat split.
  unfold orderedIDs.with_items. simpl. by rewrite insert_delete_eq.
Qed.
End registry_properties.

(** C7.  [Swap(id, newID)] on an order that contains [id], with [newID]
    not present elsewhere, succeeds and writes [newID] at the index of
    [id]: the length is the same and every other index holds what it
    held. *)
Theorem Swap_changes_one_index (s : relativeOrder.t) (id newID : string) :
  id ∈ relativeOrder.List s ->
  newID ∉ relativeOrder.List s ∨ newID = id ->
  ∃ s' i,
    relativeOrder.Swap s id newID = (None, s') ∧
    relativeOrder.List s !! i = Some id ∧
    relativeOrder.List s' !! i = Some newID ∧
    length (relativeOrder.List s') = length (relativeOrder.List s) ∧
    ∀ j, j ≠ i -> relativeOrder.List s' !! j = relativeOrder.List s !! j.
Proof.
  unfold relativeOrder.List. intros Hin Hnew.
  destruct (first_occurrence _ _ Hin) as (l1 & l2 & Hl & Hl1).
  destruct s as [l]. simpl in *. subst l.
  exists (relativeOrder.mk (l1 ++ newID :: l2)), (length l1).
  rewrite Swap_present by done. simpl.
  split; [done|].
  rewrite !list_lookup_middle by done.
  split; [done|]. split; [done|].
  split; [rewrite !length_app; done|].
  intros j Hj.
  destruct (decide (j < length l1)%nat).
  - by rewrite !lookup_app_l by done.
  - rewrite !lookup_app_r by lia.
    destruct (j - length l1)%nat eqn:E; [lia|done].
Qed.

(** ** The insertion-order contract *)

Section insertion_order_facts.
Import insertion_order.

Lemma immediately_before_at (X id : string) (l1 l2 : list string) :
  X ∉ l1 -> immediately_before X id (l1 ++ X :: l2) = l1 ++ id :: X :: l2.
Proof.
  induction l1 as [|y l1 IH]; intros Hn; simpl.
  - by destruct (decide (X = X)).
  - apply not_elem_of_cons in Hn as [Hy Hl].
    destruct (decide (y = X)); [congruence|]. by rewrite IH.
Qed.

Lemma immediately_after_at (X id : string) (l1 l2 : list string) :
  X ∉ l1 -> immediately_after X id (l1 ++ X :: l2) = l1 ++ X :: id :: l2.
Proof.
  induction l1 as [|y l1 IH]; intros Hn; simpl.
  - by destruct (decide (X = X)).
  - apply not_elem_of_cons in Hn as [Hy Hl].
    destruct (decide (y = X)); [congruence|]. by rewrite IH.
Qed.

Lemma without_at (id : string) (l1 l2 : list string) :
  id ∉ l1 -> without id (l1 ++ id :: l2) = l1 ++ l2.
Proof.
  induction l1 as [|y l1 IH]; intros Hn; simpl.
  - by destruct (decide (id = id)).
  - apply not_elem_of_cons in Hn as [Hy Hl].
    destruct (decide (y = id)); [congruence|]. by rewrite IH.
Qed.

Context {Item : Type} `{ider Item}.
Implicit Types g : orderedIDs.t Item.

(** One permitted call on a registry without slots. *)
Lemma apply_op_contract g (o : op Item) :
  orderedIDs.slots g = ∅ ->
  permitted (orderedIDs.List g) o ->
  ∃ g', apply_op g o = (None, g') ∧
        orderedIDs.slots g' = ∅ ∧
        orderedIDs.List g' = contract (orderedIDs.List g) o.
Proof.
  intros Hsl Hp.
  assert (∀ id, orderedIDs.IsSlot g id = false) as Hns.
  { intros id. apply IsSlot_false. rewrite Hsl. apply not_elem_of_empty. }
  rewrite List_order in *.
  destruct o as [m pos|m X pos|id]; simpl in *.
  - destruct Hp as (Hne & Hn & Hpos).
    rewrite Add_not_slot by done.
    destruct Hpos as [-> | ->].
    + rewrite Add_Before by done. eexists. split; [done|].
      split; [done|]. by rewrite List_order.
    + rewrite Add_After by done. eexists. split; [done|].
      split; [done|]. by rewrite List_order.
  - destruct Hp as (Hne & Hn & HXne & HX & Hpos).
    unfold orderedIDs.Insert. rewrite Hne, HXne.
    destruct (first_occurrence _ _ HX) as (l1 & l2 & Hl & Hl1).
    destruct g as [[l] its sl]. simpl in *. subst l.
    destruct Hpos as [-> | ->].
    + rewrite Insert_Before by done. eexists. split; [done|].
      split; [done|]. rewrite List_order. simpl.
      by rewrite immediately_before_at.
    + rewrite Insert_After by done. eexists. split; [done|].
      split; [done|]. rewrite List_order. simpl.
      by rewrite immediately_after_at.
  - destruct Hp as (Hne & Hin).
    unfold orderedIDs.Remove. rewrite Hne, Hns. simpl.
    destruct (first_occurrence _ _ Hin) as (l1 & l2 & Hl & Hl1).
    destruct g as [[l] its sl]. simpl in *. subst l.
    rewrite Remove_present by done. eexists. split; [done|].
    split; [done|]. rewrite List_order. simpl.
    by rewrite without_at.
Qed.

(** C6.  On a registry without slots, every call of a sequence of
    Add/Insert/Remove with new non-empty ids succeeds, and [List()] after
    each call is what the contract says: Before at index 0, After at the
    end, Insert immediately before or after the anchor. *)
Theorem List_reflects_insertion_order (ops : list (op Item)) g :
  orderedIDs.slots g = ∅ ->
  permitted_seq (orderedIDs.List g) ops ->
  run g ops = expected (orderedIDs.List g) ops.
Proof.
  revert g. induction ops as [|o ops IH]; intros g Hsl Hp; [done|].
  destruct Hp as [Hp Hrest]. simpl.
  destruct (apply_op_contract g o Hsl Hp) as (g' & -> & Hsl' & HL).
  rewrite HL. f_equal. rewrite <- HL. apply IH; [done|].
  by rewrite HL.
Qed.
End insertion_order_facts.

(** ** The handler chain *)

Section chain.
Import step_deserialize.
Context {Ctx Value Metadata HErr World : Type}.
Implicit Types s : DeserializeStep Ctx Value Metadata HErr World.

(** The loop of [HandleMiddleware] builds the handler that runs the
    first middleware of the order outermost. *)
Lemma chain_cons (next : DeserializeHandler Ctx Value Metadata HErr World)
  (m : DeserializeMiddleware Ctx Value Metadata HErr World)
  (order : list (DeserializeMiddleware Ctx Value Metadata HErr World)) :
  foldl decoratedDeserializeHandler next (reverse (m :: order))
  = decoratedDeserializeHandler
      (foldl decoratedDeserializeHandler next (reverse order)) m.
Proof. by rewrite reverse_cons, foldl_app. Qed.

(** Hence the chain is the right fold of the order over the adapter of
    the terminal handler: each middleware receives, as its next handler,
    the chain of those that follow it. *)
Lemma chain_nested (next : DeserializeHandler Ctx Value Metadata HErr World)
  (order : list (DeserializeMiddleware Ctx Value Metadata HErr World)) :
  foldl decoratedDeserializeHandler next (reverse order)
  = foldr (fun m h => decoratedDeserializeHandler h m) next order.
Proof.
  induction order as [|m order IH]; [done|].
  by rewrite chain_cons, IH.
Qed.

Lemma GetOrder_unbound (g : orderedIDs.t (DeserializeMiddleware Ctx Value Metadata HErr World)) :
  orderedIDs.items g = ∅ -> orderedIDs.GetOrder g = [].
Proof.
  intros Hi. unfold orderedIDs.GetOrder. rewrite Hi.
  induction (relativeOrder.List (orderedIDs.order g)) as [|x l IH]; [done|].
  simpl. by rewrite lookup_empty.
Qed.

(** C9.  With no middleware registered, the response of the terminal
    handler goes into [RawResponse] only, and [HandleMiddleware], which
    returns [Result], returns [nil] for it. *)
Theorem HandleMiddleware_drops_response s ctx i
  (next : Handler Ctx Value Metadata HErr World) w resp metadata w' :
  orderedIDs.items (ids s) = ∅ ->
  next ctx i w = ((Some resp, metadata, None), w') ->
  deserializeWrapHandler next ctx {| Request := i |} w
    = (({| RawResponse := Some resp; Result := None |}, metadata, None), w')
  ∧ HandleMiddleware s ctx i next w = ((None, metadata, None), w').
Proof.
  intros Hi Hn. unfold HandleMiddleware.
  rewrite GetOrder_unbound by done. simpl.
  unfold deserializeWrapHandler. simpl. by rewrite Hn.
Qed.
End chain.

Section chain_stubs.
Import step_deserialize.
Context {Ctx Value Metadata HErr : Type}.
Implicit Types s : DeserializeStep Ctx Value Metadata HErr Trace.

(** A chain of delegating stubs runs its last handler after recording
    the ids in the order of the list. *)
Lemma delegating_chain (names : list string)
  (h : DeserializeHandler Ctx Value Metadata HErr Trace) ctx i (w : Trace) :
  foldr (fun m h => decoratedDeserializeHandler h m) h
        (delegating <$> names) ctx i w
  = h ctx i (w ++ names).
Proof.
  revert w. induction names as [|n names IH]; intros w; simpl.
  - by rewrite app_nil_r.
  - unfold decoratedDeserializeHandler at 1. simpl.
    by rewrite IH, <- app_assoc.
Qed.

(** Whatever the number of middleware: when all delegate, the terminal
    handler runs after all of them, in the order of [GetOrder()]. *)
Lemma HandleMiddleware_all_delegating s ctx i
  (next : Handler Ctx Value Metadata HErr Trace) (w : Trace)
  (names : list string) :
  orderedIDs.GetOrder (ids s) = delegating <$> names ->
  HandleMiddleware s ctx i next w
  = (let '((resp, metadata, err), w') := next ctx i (w ++ names) in
     ((None, metadata, err), w')).
Proof.
  intros Ho. unfold HandleMiddleware.
  rewrite Ho, chain_nested, delegating_chain.
  unfold deserializeWrapHandler. simpl.
  by destruct (next ctx i (w ++ names)) as [[[resp md] e] w'].
Qed.

(** C4.  When [GetOrder()] is [A, B, C] and each records its id and
    delegates, the chain runs the terminal handler in the world in which
    A, B and C were invoked in this order, and returns what it returns.
    When B returns without calling its next handler, the chain returns
    B's result in the world in which only A and B were invoked, whatever
    C and the terminal handler are: they are not invoked. *)
Theorem HandleMiddleware_runs_in_order s s' ctx i
  (next : Handler Ctx Value Metadata HErr Trace) (w : Trace) (A B C : string)
  (out : DeserializeOutput Value) (metadata : Metadata) (err : option HErr)
  (mC : DeserializeMiddleware Ctx Value Metadata HErr Trace) :
  orderedIDs.GetOrder (ids s)
    = [delegating A; delegating B; delegating C] ->
  orderedIDs.GetOrder (ids s')
    = [delegating A; shortCircuiting B (out, metadata, err); mC] ->
  HandleMiddleware s ctx i next w
    = (let '((resp, metadata, err), w') := next ctx i (w ++ [A; B; C]) in
       ((None, metadata, err), w'))
  ∧ HandleMiddleware s' ctx i next w
    = ((Result out, metadata, err), w ++ [A; B]).
Proof.
  intros Ho Ho'. split.
  - unfold HandleMiddleware. rewrite Ho, !chain_cons. simpl.
    unfold decoratedDeserializeHandler, deserializeWrapHandler. simpl.
    rewrite <- !app_assoc. simpl.
    by destruct (next ctx i (w ++ [A; B; C])) as [[[resp md] e] w'].
  - unfold HandleMiddleware. rewrite Ho', !chain_cons. simpl.
    unfold decoratedDeserializeHandler. simpl.
    by rewrite <- !app_assoc.
Qed.
End chain_stubs.

Section step_swap.
Import step_deserialize.
Context {Ctx Value Metadata HErr World : Type}.
Implicit Types s : DeserializeStep Ctx Value Metadata HErr World.

(** C2, at an unfilled slot.  On a step built by the exported methods, for
    an id that was reserved as a slot and never filled and a middleware
    of the same id, [orderedIDs.Swap] succeeds and returns [nil] as the
    previously bound item, there being no placeholder; and
    [DeserializeStep.Swap] does not return: its type assertion on that
    [nil] panics, after the registry was updated. *)
Theorem Swap_unfilled_slot_panics s id
  (m : DeserializeMiddleware Ctx Value Metadata HErr World) :
  registry.reachable (ids s) ->
  orderedIDs.IsSlot (ids s) id = true ->
  orderedIDs.Get (ids s) id = None ->
  ID m = id ->
  fst (orderedIDs.Swap (ids s) id m) = (None, None)
  ∧ fst (Swap s id m) = Panics nil_assertion
  ∧ orderedIDs.Get (ids (snd (Swap s id m))) id = Some m.
Proof.
  intros Hr Hs Hn Hid.
  destruct (Swap_unfilled_slot (ids s) id m Hr Hs Hn Hid)
    as (g' & Hsw & _ & Hitems & _).
  unfold Swap. rewrite Hsw. simpl. split; [done|]. split; [done|].
  unfold orderedIDs.Get. rewrite Hitems. apply lookup_insert_eq.
Qed.
End step_swap.

(** ** The generated waiters *)

Section waiter_properties.
Import Waiters.
Context {Input Output OpErr ExtErr Ctx APIOption : Type}.
Variable Search : string -> option Output -> pathValue + ExtErr.
Variable SearchInputOutput :
  string -> Input -> option Output -> pathValue + ExtErr.
Variable errorsAsModeled : OpErr -> string -> bool.
Variable errorsAsAPIError : OpErr -> option string.
Variable operationErrors : list string.
Variable waiterName : string.
Variable ComputeDelay : Z -> Z -> Z -> Z -> Z + ExtErr.
Variable SleepWithContext : Ctx -> Z -> Z -> option ExtErr.
Variable WithDeadline : Ctx -> Z -> Ctx.

Local Abbreviation block :=
  (acceptorBlock Search SearchInputOutput errorsAsModeled errorsAsAPIError
                 operationErrors).
Local Abbreviation body :=
  (retryableBody Search SearchInputOutput errorsAsModeled errorsAsAPIError
                 operationErrors).



Lemma body_none_fire (acceptors : list Acceptor)
  (input : Input) (output : option Output) (err : option OpErr) :
  (∀ a, a ∈ acceptors -> block a input output err = None) ->
  body acceptors input output err = (true, None).
Proof.
  induction acceptors as [|a l IH]; intros Hall; simpl; [done|].
  rewrite (Hall a) by left. apply IH. intros b Hb. apply Hall. by right.
Qed.



(** C1, at [maxWaitTime = 0].  The configuration error is built and
    dropped; the option overrides are applied and the loop is entered,
    whose first test returns the error of an exceeded wait time.  Nothing
    was computed, slept, logged, invoked or evaluated before. *)
Theorem Wait_zero_returns_exceeded (fuel : nat)
  (w : WaiterClient Input Output OpErr ExtErr Ctx APIOption) (ctx : Ctx)
  (params : Input)
  (optFns : list (WaiterOptions Input Output OpErr ExtErr APIOption ->
                  WaiterOptions Input Output OpErr ExtErr APIOption)) :
  Wait waiterName ComputeDelay SleepWithContext WithDeadline
       (S fuel) w ctx params 0 optFns
  = Some (Some (ErrExceededMaximumWaitTime waiterName), [])
  ∧ is_configuration_error
      (Some (ErrExceededMaximumWaitTime (ExtErr := ExtErr) waiterName)) = false.
Proof. split; reflexivity. Qed.
End waiter_properties.

(** ** The theorems at the examples *)

Ltac decide_by_computation :=
  apply (bool_decide_unpack _); vm_compute; exact I.

Section at_examples.
Import examples.

Lemma Add_duplicate_leaves_registry_witness :
  ∃ e g', orderedIDs.Add slotX_then_A (item "A" 1) Before = (Some e, g') ∧
          g' = slotX_then_A ∧
          orderedIDs.List g' = orderedIDs.List slotX_then_A ∧
          orderedIDs.items g' = orderedIDs.items slotX_then_A ∧
          orderedIDs.slots g' = orderedIDs.slots slotX_then_A.
Proof.
  apply (Add_duplicate_leaves_registry slotX_then_A (item "A" 1) Before).
  - decide_by_computation.
  - vm_compute. reflexivity.
Defined.

Lemma Add_duplicate_iff_not_slot_witness :
  (is_duplicate (fst (orderedIDs.Add filledX (item "X" 1) Before)) = true ↔
     empty_id "X" = false ∧ "X" ∈ orderedIDs.List filledX ∧
     orderedIDs.IsSlot filledX "X" = false)
  ∧ (orderedIDs.IsSlot filledX "X" = true ->
     ∃ g', orderedIDs.Add filledX (item "X" 1) Before = (None, g') ∧
           orderedIDs.List g' = orderedIDs.List filledX ∧
           orderedIDs.items g'
             = <["X" := item "X" 1]> (orderedIDs.items filledX) ∧
           orderedIDs.slots g' = orderedIDs.slots filledX ∧
           orderedIDs.Get g' "X" = Some (item "X" 1)).
Proof.
  exact (Add_duplicate_iff_not_slot filledX (item "X" 1) Before
           (registry.reach_Add _ _ _
              (registry.reach_AddSlot _ _ _ registry.reach_new))).
Defined.

(** C3 fails as stated: after [AddSlot("X", After)] and [Add(A, After)],
    [Remove("X")] succeeds and [List()] is still [X, A]; [Add(X, After)]
    then succeeds and [List()] is still [X, A], with X at index 0 and not
    at the end. *)
Lemma Remove_slot_counterexample :
  orderedIDs.IsSlot slotX_then_A "X" = true ∧
  fst (orderedIDs.Remove slotX_then_A "X") = None ∧
  orderedIDs.List (snd (orderedIDs.Remove slotX_then_A "X")) = ["X"; "A"] ∧
  fst (orderedIDs.Add (snd (orderedIDs.Remove slotX_then_A "X"))
                      (item "X" 1) After) = None ∧
  orderedIDs.List
    (snd (orderedIDs.Add (snd (orderedIDs.Remove slotX_then_A "X"))
                         (item "X" 1) After))
    = ["X"; "A"].
Proof. vm_compute. repeat split. Qed.

Lemma Remove_slot_keeps_position_witness :
  orderedIDs.List (snd (orderedIDs.Remove slotX_then_A "X"))
    = orderedIDs.List slotX_then_A ∧
  orderedIDs.slots (snd (orderedIDs.Remove slotX_then_A "X"))
    = orderedIDs.slots slotX_then_A ∧
  orderedIDs.items (snd (orderedIDs.Remove slotX_then_A "X"))
    = delete "X" (orderedIDs.items slotX_then_A) ∧
  ∀ m pos, ID m = "X" ->
    ∃ g'', orderedIDs.Add (snd (orderedIDs.Remove slotX_then_A "X")) m pos
             = (None, g'') ∧
           orderedIDs.List g'' = orderedIDs.List slotX_then_A ∧
           orderedIDs.Get g'' "X" = Some m.
Proof.
  apply (Remove_slot_keeps_position slotX_then_A "X").
  - vm_compute. reflexivity.
  - vm_compute. reflexivity.
Defined.

(** On the slot reserved by [AddSlot("X", After)] and never filled,
    [orderedIDs.Swap] returns [nil] as the item removed, not a
    placeholder, and [DeserializeStep.Swap] panics in its type
    assertion. *)
Lemma Swap_unfilled_slot_counterexample :
  orderedIDs.IsSlot slotX "X" = true ∧
  orderedIDs.Get slotX "X" = None ∧
  fst (orderedIDs.Swap slotX "X" (item "X" 1)) = (None, None) ∧
  fst (orderedIDs.Swap (step_deserialize.ids stepSlotX) "X" stubX)
    = (None, None) ∧
  fst (step_deserialize.Swap stepSlotX "X" stubX) = Panics nil_assertion.
Proof. vm_compute. repeat split. Qed.

Lemma Swap_unfilled_slot_witness :
  ∃ g', orderedIDs.Swap slotX "X" (item "X" 1) = ((None, None), g') ∧
        orderedIDs.List g' = orderedIDs.List slotX ∧
        orderedIDs.items g' = <["X" := item "X" 1]> (orderedIDs.items slotX) ∧
        orderedIDs.slots g' = orderedIDs.slots slotX.
Proof.
  apply (Swap_unfilled_slot slotX "X" (item "X" 1)).
  - apply registry.reach_AddSlot, registry.reach_new.
  - vm_compute. reflexivity.
  - vm_compute. reflexivity.
  - reflexivity.
Defined.

Lemma Swap_unfilled_slot_panics_witness :
  fst (orderedIDs.Swap (step_deserialize.ids stepSlotX) "X" stubX)
    = (None, None)
  ∧ fst (step_deserialize.Swap stepSlotX "X" stubX) = Panics nil_assertion
  ∧ orderedIDs.Get
      (step_deserialize.ids (snd (step_deserialize.Swap stepSlotX "X" stubX)))
      "X" = Some stubX.
Proof.
  exact (Swap_unfilled_slot_panics stepSlotX "X" stubX
           (registry.reach_AddSlot _ "X" After registry.reach_new)
           eq_refl eq_refl eq_refl).
Defined.

Lemma Swap_changes_one_index_witness :
  ∃ s' i,
    relativeOrder.Swap (relativeOrder.mk ["a"; "b"; "c"]) "b" "x" = (None, s') ∧
    ["a"; "b"; "c"] !! i = Some "b" ∧
    relativeOrder.List s' !! i = Some "x" ∧
    length (relativeOrder.List s') = 3%nat ∧
    ∀ j, j ≠ i -> relativeOrder.List s' !! j = ["a"; "b"; "c"] !! j.
Proof.
  apply (Swap_changes_one_index (relativeOrder.mk ["a"; "b"; "c"]) "b" "x").
  - decide_by_computation.
  - left. decide_by_computation.
Defined.

Lemma List_reflects_insertion_order_witness :
  insertion_order.run orderedIDs.newOrderedIDs calls
  = [ (None, ["A"]);
      (None, ["B"; "A"]);
      (None, ["B"; "C"; "A"]);
      (None, ["B"; "D"; "C"; "A"]);
      (None, ["B"; "D"; "C"]) ].
Proof.
  assert (orderedIDs.slots (@orderedIDs.newOrderedIDs tagged) = ∅)
    as Hslots by reflexivity.
  assert (insertion_order.permitted_seq
            (orderedIDs.List (@orderedIDs.newOrderedIDs tagged)) calls)
    as Hcalls
    by (cbn; repeat split; try reflexivity; try decide_by_computation).
  exact (List_reflects_insertion_order
           calls orderedIDs.newOrderedIDs Hslots Hcalls).
Defined.

Lemma HandleMiddleware_drops_response_witness :
  step_deserialize.deserializeWrapHandler terminal tt
    {| step_deserialize.Request := Some "request" |} []
    = (({| step_deserialize.RawResponse := Some "response";
           step_deserialize.Result := None |}, tt, None),
       ["terminal"])
  ∧ step_deserialize.HandleMiddleware newStep tt (Some "request") terminal []
    = ((None, tt, None), ["terminal"]).
Proof.
  apply (HandleMiddleware_drops_response
           newStep tt (Some "request") terminal [] "response" tt ["terminal"]).
  - reflexivity.
  - reflexivity.
Defined.

Lemma HandleMiddleware_runs_in_order_witness :
  step_deserialize.HandleMiddleware stepABC tt (Some "request") terminal []
    = ((None, tt, None), ["A"; "B"; "C"; "terminal"])
  ∧ step_deserialize.HandleMiddleware stepAbC tt (Some "request") terminal []
    = ((Some "cached", tt, None), ["A"; "B"]).
Proof.
  assert (orderedIDs.GetOrder (step_deserialize.ids stepABC)
          = [step_deserialize.delegating "A";
             step_deserialize.delegating "B";
             step_deserialize.delegating "C"])
    as Habc by (vm_compute; reflexivity).
  assert (orderedIDs.GetOrder (step_deserialize.ids stepAbC)
          = [step_deserialize.delegating "A";
             step_deserialize.shortCircuiting "B" cached;
             step_deserialize.delegating "C"])
    as HabC by (vm_compute; reflexivity).
  exact (HandleMiddleware_runs_in_order
           stepABC stepAbC tt (Some "request") terminal [] "A" "B" "C"
           {| step_deserialize.RawResponse := None;
              step_deserialize.Result := Some "cached" |} tt None
           (step_deserialize.delegating "C") Habc HabC).
Defined.


(** With a Success acceptor after it, the verdict is that acceptor's. *)
Example empty_list_falls_to_next :
  retryableBodyAt [allRunning; onSuccess] (Some []) None = (false, None).
Proof. reflexivity. Qed.

End at_examples.

(** * Further properties *)

(** ** The invariant of the registry *)

Section invariant_facts.
Import invariant.
Context {Item : Type} `{ider Item}.
Implicit Types g : orderedIDs.t Item.

Lemma wf_new : well_formed (@orderedIDs.newOrderedIDs Item).
Proof.
  split; simpl.
  - apply NoDup_nil_2.
  - intros id Hid. by apply elem_of_nil in Hid.
  - intros id Hid. by apply elem_of_empty in Hid.
  - intros id m Hm. by rewrite lookup_empty in Hm.
  - intros id Hid. by apply elem_of_nil in Hid.
Qed.

(** A new id takes a place in the order and is bound. *)
Lemma wf_bind_new g (o : list string) (m : Item) :
  well_formed g ->
  ID m ∉ relativeOrder.order (orderedIDs.order g) ->
  empty_id (ID m) = false ->
  o ≡ₚ ID m :: relativeOrder.order (orderedIDs.order g) ->
  well_formed (orderedIDs.mk (relativeOrder.mk o)
                 (<[ID m := m]> (orderedIDs.items g)) (orderedIDs.slots g)).
Proof.
  intros [Hu Hn Hs Hi Hc] Hfresh Hne Hp. split; simpl.
  - rewrite Hp. by apply NoDup_cons_2.
  - intros id Hid. rewrite Hp in Hid.
    apply elem_of_cons in Hid as [->|Hid]; [done|by apply Hn].
  - intros id Hid. rewrite Hp. right. by apply Hs.
  - intros id m' Hm'. rewrite Hp.
    destruct (decide (ID m = id)) as [<-|Hne'].
    + rewrite lookup_insert_eq in Hm'. injection Hm' as <-.
      split; [done|left].
    + rewrite lookup_insert_ne in Hm' by done.
      destruct (Hi id m' Hm') as [? ?]. split; [done|by right].
  - intros id Hid. rewrite Hp in Hid.
    apply elem_of_cons in Hid as [->|Hid].
    + right. rewrite lookup_insert_eq. by eexists.
    + destruct (Hc id Hid) as [Hsl|Hb]; [by left|right].
      destruct (decide (ID m = id)) as [<-|Hne'];
        [rewrite lookup_insert_eq; by eexists|].
      by rewrite lookup_insert_ne.
Qed.

(** A new id takes a place in the order and is reserved. *)
Lemma wf_reserve_new g (o : list string) (id : string) :
  well_formed g ->
  id ∉ relativeOrder.order (orderedIDs.order g) ->
  empty_id id = false ->
  o ≡ₚ id :: relativeOrder.order (orderedIDs.order g) ->
  well_formed (orderedIDs.mk (relativeOrder.mk o)
                 (orderedIDs.items g) ({[id]} ∪ orderedIDs.slots g)).
Proof.
  intros [Hu Hn Hs Hi Hc] Hfresh Hne Hp. split; simpl.
  - rewrite Hp. by apply NoDup_cons_2.
  - intros x Hx. rewrite Hp in Hx.
    apply elem_of_cons in Hx as [->|Hx]; [done|by apply Hn].
  - intros x Hx. rewrite Hp.
    apply elem_of_union in Hx as [->%elem_of_singleton|Hx];
      [left|right; by apply Hs].
  - intros x m Hm. rewrite Hp.
    destruct (Hi x m Hm) as [? ?]. split; [done|by right].
  - intros x Hx. rewrite Hp in Hx.
    apply elem_of_cons in Hx as [->|Hx].
    + left. apply elem_of_union. left. by apply elem_of_singleton.
    + destruct (Hc x Hx) as [Hsl|Hb]; [left|by right].
      apply elem_of_union. by right.
Qed.

Lemma wf_same g : well_formed g -> well_formed (orderedIDs.with_order g (orderedIDs.order g)).
Proof. by rewrite with_order_same. Qed.

Lemma wf_Add g m pos :
  well_formed g -> well_formed (snd (orderedIDs.Add g m pos)).
Proof.
  intros Hg. unfold orderedIDs.Add.
  destruct (empty_id (ID m)) eqn:Hne; [done|].
  destruct (orderedIDs.IsSlot g (ID m)) eqn:Hsl; simpl.
  - apply IsSlot_true in Hsl. destruct Hg as [Hu Hn Hs Hi Hc].
    split; simpl; try done.
    + intros id m' Hm'.
      destruct (decide (ID m = id)) as [<-|Hne'].
      * rewrite lookup_insert_eq in Hm'. injection Hm' as <-.
        split; [done|by apply Hs].
      * rewrite lookup_insert_ne in Hm' by done. by apply Hi.
    + intros id Hid. destruct (Hc id Hid) as [?|Hb]; [by left|right].
      destruct (decide (ID m = id)) as [<-|Hne'];
        [rewrite lookup_insert_eq; by eexists|].
      by rewrite lookup_insert_ne.
  - destruct (Add_cases (orderedIDs.order g) (ID m) pos)
      as [[e ->]|[Hfresh [-> | ->]]];
      unfold orderedIDs.with_items, orderedIDs.with_slots; simpl.
    + by apply wf_same.
    + by apply wf_bind_new.
    + apply wf_bind_new; try done. simpl.
      symmetry. apply Permutation_cons_append.
Qed.

Lemma wf_AddSlot g id pos :
  well_formed g -> well_formed (snd (orderedIDs.AddSlot g id pos)).
Proof.
  intros Hg. unfold orderedIDs.AddSlot.
  destruct (empty_id id) eqn:Hne; [done|].
  destruct (Add_cases (orderedIDs.order g) id pos)
    as [[e ->]|[Hfresh [-> | ->]]];
      unfold orderedIDs.with_items, orderedIDs.with_slots; simpl.
  - by apply wf_same.
  - by apply wf_reserve_new.
  - apply wf_reserve_new; try done. simpl.
    symmetry. apply Permutation_cons_append.
Qed.

Lemma wf_Insert g m X pos :
  well_formed g -> well_formed (snd (orderedIDs.Insert g m X pos)).
Proof.
  intros Hg. unfold orderedIDs.Insert.
  destruct (empty_id (ID m)) eqn:Hne; [done|].
  destruct (empty_id X); [done|].
  destruct (Insert_cases (orderedIDs.order g) (ID m) X pos)
    as [[e ->]|(l1 & l2 & Hl & Hfresh & [-> | ->])];
    unfold orderedIDs.with_items, orderedIDs.with_slots; simpl.
  - by apply wf_same.
  - apply wf_bind_new; try done. simpl. rewrite Hl.
    symmetry. apply Permutation_middle.
  - apply wf_bind_new; try done. simpl. rewrite Hl.
    rewrite <- (Permutation_middle l1 (ID m :: l2) X).
    rewrite <- (Permutation_middle l1 l2 (ID m)).
    rewrite <- (Permutation_middle l1 l2 X).
    apply Permutation_swap.
Qed.

Lemma wf_InsertSlot g id X pos :
  well_formed g -> well_formed (snd (orderedIDs.InsertSlot g id X pos)).
Proof.
  intros Hg. unfold orderedIDs.InsertSlot.
  destruct (empty_id id) eqn:Hne; [done|].
  destruct (empty_id X); [done|].
  destruct (Insert_cases (orderedIDs.order g) id X pos)
    as [[e ->]|(l1 & l2 & Hl & Hfresh & [-> | ->])];
    unfold orderedIDs.with_items, orderedIDs.with_slots; simpl.
  - by apply wf_same.
  - apply wf_reserve_new; try done. simpl. rewrite Hl.
    symmetry. apply Permutation_middle.
  - apply wf_reserve_new; try done. simpl. rewrite Hl.
    rewrite <- (Permutation_middle l1 (id :: l2) X).
    rewrite <- (Permutation_middle l1 l2 id).
    rewrite <- (Permutation_middle l1 l2 X).
    apply Permutation_swap.
Qed.

Lemma NoDup_middle_inv (l1 l2 : list string) (x : string) :
  NoDup (l1 ++ x :: l2) -> (x ∉ l1) ∧ (x ∉ l2) ∧ NoDup (l1 ++ l2).
Proof.
  intros Hd. apply NoDup_app in Hd as (Hd1 & Hd12 & Hd2).
  apply NoDup_cons in Hd2 as [Hx2 Hd2].
  split; [|split; [done|]].
  - intros Hx. apply (Hd12 x Hx). left.
  - apply NoDup_app. split; [done|]. split; [|done].
    intros y Hy Hy2. apply (Hd12 y Hy). by right.
Qed.

Lemma NoDup_middle (l1 l2 : list string) (x : string) :
  x ∉ l1 -> x ∉ l2 -> NoDup (l1 ++ l2) -> NoDup (l1 ++ x :: l2).
Proof.
  intros H1 H2 Hd. rewrite <- Permutation_middle.
  apply NoDup_cons_2; [|done].
  intros Hx. apply elem_of_app in Hx as [?|?]; done.
Qed.

Lemma wf_Swap g id m :
  well_formed g -> well_formed (snd (orderedIDs.Swap g id m)).
Proof.
  intros Hg. unfold orderedIDs.Swap.
  destruct (empty_id id); [done|].
  destruct (empty_id (ID m)) eqn:Hne; [done|].
  destruct (orderedIDs.IsSlot g id && negb (bool_decide (id = ID m))) eqn:E;
    [done|].
  destruct (Swap_cases (orderedIDs.order g) id (ID m))
    as [[e ->]|(l1 & l2 & Hl & Hl1 & Hto & ->)]; simpl.
  { by apply wf_same. }
  unfold orderedIDs.with_items; simpl.
  destruct Hg as [Hu Hn Hs Hi Hc]. rewrite Hl in *.
  destruct (NoDup_middle_inv _ _ _ Hu) as (_ & Hl2 & Hd).
  destruct (decide (ID m = id)) as [Heq|Hneq].
  - (* the same id: the order is the same *)
    rewrite Heq, insert_delete_eq. split; simpl; try done.
    + intros x m' Hm'. destruct (decide (id = x)) as [<-|Hx].
      * rewrite lookup_insert_eq in Hm'. injection Hm' as <-.
        split; [done|]. apply elem_of_app. right. left.
      * rewrite lookup_insert_ne in Hm' by done. by apply Hi.
    + intros x Hx. destruct (Hc x Hx) as [?|Hb]; [by left|right].
      destruct (decide (id = x)) as [<-|Hx'];
        [rewrite lookup_insert_eq; by eexists|].
      by rewrite lookup_insert_ne.
  - (* another id, which is not in the order; [id] is not a slot *)
    destruct Hto as [Hto|Hto]; [|done].
    assert (id ∉ orderedIDs.slots g) as Hns.
    { apply andb_false_iff in E as [E|E]; [by apply IsSlot_false|].
      apply negb_false_iff, bool_decide_eq_true in E. congruence. }
    assert ((ID m ∉ l1) ∧ (ID m ∉ l2)) as [Ht1 Ht2].
    { split; intros Hx; apply Hto; list_mem. }
    split; simpl.
    + by apply NoDup_middle.
    + intros x Hx. apply elem_of_app in Hx as [Hx|Hx].
      * apply Hn. list_mem.
      * apply elem_of_cons in Hx as [->|Hx]; [done|]. apply Hn. list_mem.
    + intros x Hx. pose proof (Hs x Hx) as Hin.
      assert (x ≠ id) by congruence. list_mem.
    + intros x m' Hm'. destruct (decide (ID m = x)) as [<-|Hx].
      * rewrite lookup_insert_eq in Hm'. injection Hm' as <-.
        split; [done|]. list_mem.
      * rewrite lookup_insert_ne in Hm' by done.
        apply lookup_delete_Some in Hm' as [Hxid Hm'].
        destruct (Hi x m' Hm') as [? Hin]. split; [done|]. list_mem.
    + intros x Hx.
      destruct (decide (ID m = x)) as [<-|Hxm].
      { right. rewrite lookup_insert_eq. by eexists. }
      assert (x ≠ id ∧ x ∈ l1 ++ id :: l2) as [Hxid Hin].
      { split; [intros ->|]; list_mem. }
      destruct (Hc x Hin) as [?|Hb]; [by left|right].
      by rewrite lookup_insert_ne, lookup_delete_ne.
Qed.

Lemma wf_Remove g id :
  well_formed g -> well_formed (snd (orderedIDs.Remove g id)).
Proof.
  intros Hg. unfold orderedIDs.Remove.
  destruct (empty_id id); [done|].
  destruct (orderedIDs.IsSlot g id) eqn:Hsl; simpl.
  - apply IsSlot_true in Hsl. destruct Hg as [Hu Hn Hs Hi Hc].
    split; simpl; try done.
    + intros x m' Hm'. apply lookup_delete_Some in Hm' as [_ Hm'].
      by apply Hi.
    + intros x Hx. destruct (decide (x = id)) as [->|Hxid]; [by left|].
      destruct (Hc x Hx) as [?|Hb]; [by left|right].
      by rewrite lookup_delete_ne.
  - apply IsSlot_false in Hsl.
    destruct (Remove_cases (orderedIDs.order g) id)
      as [[_ ->]|(l1 & l2 & Hl & Hl1 & ->)]; simpl.
    { by apply wf_same. }
    unfold orderedIDs.with_items; simpl.
    destruct Hg as [Hu Hn Hs Hi Hc]. rewrite Hl in *.
    destruct (NoDup_middle_inv _ _ _ Hu) as (_ & Hl2 & Hd).
    split; simpl.
    + done.
    + intros x Hx. apply Hn. list_mem.
    + intros x Hx. pose proof (Hs x Hx) as Hin.
      assert (x ≠ id) by congruence. list_mem.
    + intros x m' Hm'. apply lookup_delete_Some in Hm' as [Hxid Hm'].
      destruct (Hi x m' Hm') as [? Hin]. split; [done|]. list_mem.
    + intros x Hx.
      assert (x ≠ id ∧ x ∈ l1 ++ id :: l2) as [Hxid Hin].
      { split; [intros ->|]; list_mem. }
      destruct (Hc x Hin) as [?|Hb]; [by left|right].
      by rewrite lookup_delete_ne.
Qed.

Lemma wf_Clear g : well_formed (orderedIDs.Clear g).
Proof. apply wf_new. Qed.

Lemma reachable_well_formed g : registry.reachable g -> well_formed g.
Proof.
  induction 1;
    eauto using wf_new, wf_Add, wf_AddSlot, wf_Insert, wf_InsertSlot,
      wf_Swap, wf_Remove, wf_Clear.
Qed.
End invariant_facts.

(** ** What a reachable registry guarantees *)

Section registry_guarantees.
Context {Item : Type} `{ider Item}.
Implicit Types g : orderedIDs.t Item.

(** The loop of [GetOrder] collects the bound items of the order. *)
Lemma GetOrder_loop (its : gmap string Item) (l : list string)
  (acc : list Item) :
  foldl (fun ordered id =>
           match its !! id with
           | Some m => ordered ++ [m]
           | None => ordered
           end) acc l
  = acc ++ omap (fun id => its !! id) l.
Proof.
  revert acc. induction l as [|x l IH]; intros acc; simpl.
  - by rewrite app_nil_r.
  - rewrite IH. destruct (its !! x) as [m|]; simpl; [|done].
    by rewrite <- app_assoc.
Qed.

Lemma GetOrder_omap g :
  orderedIDs.GetOrder g
  = omap (fun id => orderedIDs.items g !! id) (orderedIDs.List g).
Proof.
  rewrite List_order. unfold orderedIDs.GetOrder, relativeOrder.List.
  by rewrite GetOrder_loop.
Qed.

(** X1.  In a registry built by the exported methods no id occurs twice
    in [List()] and none is empty. *)
Theorem List_ids_unique g :
  registry.reachable g ->
  NoDup (orderedIDs.List g) ∧
  ∀ id, id ∈ orderedIDs.List g -> empty_id id = false.
Proof.
  intros Hr. destruct (reachable_well_formed g Hr) as [Hu Hn _ _ _].
  by rewrite List_order.
Qed.

(** X2.  In a registry built by the exported methods, the item that
    [Get(id)] returns has the id [id], and [id] is in [List()]; and every
    id of [List()] is a slot or is bound to an item. *)
Theorem Get_agrees_with_List g :
  registry.reachable g ->
  (∀ id m, orderedIDs.Get g id = Some m ->
           ID m = id ∧ id ∈ orderedIDs.List g)
  ∧ (∀ id, id ∈ orderedIDs.List g ->
           orderedIDs.IsSlot g id = true ∨ is_Some (orderedIDs.Get g id)).
Proof.
  intros Hr. destruct (reachable_well_formed g Hr) as [_ _ _ Hi Hc].
  rewrite List_order. split; [exact Hi|].
  intros id Hid. destruct (Hc id Hid) as [?|?]; [left|by right].
  by apply IsSlot_true.
Qed.

Lemma ids_of_bound (its : gmap string Item) (l : list string) :
  (∀ id m, its !! id = Some m -> ID m = id) ->
  ID <$> omap (fun id => its !! id) l
  = filter (fun id => is_Some (its !! id)) l.
Proof.
  intros Hi. induction l as [|x l IH]; [done|]. simpl.
  destruct (its !! x) as [m|] eqn:Hx; simpl.
  - rewrite filter_cons_True by (rewrite Hx; by eexists).
    rewrite <- IH. simpl. by rewrite (Hi x m Hx).
  - rewrite filter_cons_False; [done|]. rewrite Hx. by intros [? ?].
Qed.

(** X3.  In a registry built by the exported methods, the ids of
    [GetOrder()] are the ids of [List()] that are bound, in the order of
    [List()]: unfilled slots are left out, no item comes twice, and an
    item is in [GetOrder()] exactly when [Get] returns it for its id. *)
Theorem GetOrder_is_bound_part_of_List g :
  registry.reachable g ->
  ID <$> orderedIDs.GetOrder g
    = filter (fun id => is_Some (orderedIDs.Get g id)) (orderedIDs.List g)
  ∧ NoDup (ID <$> orderedIDs.GetOrder g)
  ∧ ∀ m, m ∈ orderedIDs.GetOrder g ↔ orderedIDs.Get g (ID m) = Some m.
Proof.
  intros Hr. pose proof (reachable_well_formed g Hr) as [Hu _ _ Hi _].
  assert (ID <$> orderedIDs.GetOrder g
          = filter (fun id => is_Some (orderedIDs.Get g id)) (orderedIDs.List g))
    as Hids.
  { rewrite GetOrder_omap. apply ids_of_bound. intros id m Hm.
    by destruct (Hi id m Hm). }
  split; [done|]. split.
  - rewrite Hids. apply NoDup_filter. by rewrite List_order.
  - intros m. rewrite GetOrder_omap, list_elem_of_omap. split.
    + intros (id & _ & Hm). destruct (Hi id m Hm) as [<- _]. done.
    + intros Hm. exists (ID m). split; [|done].
      rewrite List_order. by destruct (Hi _ _ Hm).
Qed.
End registry_guarantees.

(** ** Failing calls *)

Section registry_errors.
Context {Item : Type} `{ider Item}.
Implicit Types g : orderedIDs.t Item.

(** X4.  A call of Add, AddSlot, Insert, InsertSlot, Swap or Remove that
    returns an error leaves the registry as it was, order, bindings and
    slots. *)
Theorem failed_call_changes_nothing g (c : mutation.call Item) e g' :
  mutation.exec g c = (Some e, g') -> g' = g.
Proof.
  destruct c as [m pos|id pos|m X pos|id X pos|id m|id]; simpl.
  - unfold orderedIDs.Add. destruct (empty_id (ID m)); [congruence|].
    destruct (orderedIDs.IsSlot g (ID m)); simpl; [done|].
    destruct (Add_cases (orderedIDs.order g) (ID m) pos)
      as [[e' ->]|[_ [-> | ->]]]; simpl; try done.
    rewrite with_order_same. congruence.
  - unfold orderedIDs.AddSlot. destruct (empty_id id); [congruence|].
    destruct (Add_cases (orderedIDs.order g) id pos)
      as [[e' ->]|[_ [-> | ->]]]; simpl; try done.
    rewrite with_order_same. congruence.
  - unfold orderedIDs.Insert. destruct (empty_id (ID m)); [congruence|].
    destruct (empty_id X); [congruence|].
    destruct (Insert_cases (orderedIDs.order g) (ID m) X pos)
      as [[e' ->]|(l1 & l2 & _ & _ & [-> | ->])]; simpl; try done.
    rewrite with_order_same. congruence.
  - unfold orderedIDs.InsertSlot. destruct (empty_id id); [congruence|].
    destruct (empty_id X); [congruence|].
    destruct (Insert_cases (orderedIDs.order g) id X pos)
      as [[e' ->]|(l1 & l2 & _ & _ & [-> | ->])]; simpl; try done.
    rewrite with_order_same. congruence.
  - unfold orderedIDs.Swap. destruct (empty_id id); [congruence|].
    destruct (empty_id (ID m)); [congruence|].
    destruct (orderedIDs.IsSlot g id && negb (bool_decide (id = ID m)));
      [congruence|].
    destruct (Swap_cases (orderedIDs.order g) id (ID m))
      as [[e' ->]|(l1 & l2 & _ & _ & _ & ->)]; simpl; try done.
    rewrite with_order_same. congruence.
  - unfold orderedIDs.Remove. destruct (empty_id id); [congruence|].
    destruct (orderedIDs.IsSlot g id); simpl; [done|].
    destruct (Remove_cases (orderedIDs.order g) id)
      as [[_ ->]|(l1 & l2 & _ & _ & ->)]; simpl; try done.
    rewrite with_order_same. congruence.
Qed.

(** X5.  [Add] fails exactly when the id is empty, or is not a slot and
    either is already in [List()] or comes with a position that is neither
    [Before] nor [After].  On a slot id the position is not looked at. *)
Theorem Add_fails_iff g m pos :
  fst (orderedIDs.Add g m pos) ≠ None ↔
  empty_id (ID m) = true ∨
  (orderedIDs.IsSlot g (ID m) = false ∧
   (ID m ∈ orderedIDs.List g ∨ (pos ≠ Before ∧ pos ≠ After))).
Proof.
  rewrite List_order. unfold orderedIDs.Add.
  destruct (empty_id (ID m)); [simpl; split; [by left|done]|].
  destruct (orderedIDs.IsSlot g (ID m)); simpl.
  { split; [done|]. intros [?|[? _]]; done. }
  destruct (decide (ID m ∈ relativeOrder.order (orderedIDs.order g)))
    as [Hin|Hn].
  - rewrite Add_present by done. simpl. split; [|done].
    intros _. right. split; [done|by left].
  - destruct (decide (pos = Before)) as [->|Hb].
    { rewrite Add_Before by done. simpl. split; [done|].
      intros [?|[_ [?|[? _]]]]; done. }
    destruct (decide (pos = After)) as [->|Ha].
    { rewrite Add_After by done. simpl. split; [done|].
      intros [?|[_ [?|[_ ?]]]]; done. }
    unfold relativeOrder.Add. rewrite has_absent by done. simpl.
    destruct (decide (pos = Before)); [done|].
    destruct (decide (pos = After)); [done|]. simpl.
    split; [|done]. intros _. right. split; [done|by right].
Qed.

(** X6.  [Insert] and [InsertSlot] fail exactly when the id or the anchor
    is empty, the id is already in [List()], the anchor is not in
    [List()], or the position is neither [Before] nor [After]. *)
Theorem Insert_fails_iff g m X pos :
  let failing (id : string) : Prop :=
    empty_id id = true ∨ empty_id X = true ∨
    id ∈ orderedIDs.List g ∨ X ∉ orderedIDs.List g ∨
    (pos ≠ Before ∧ pos ≠ After) in
  (fst (orderedIDs.Insert g m X pos) ≠ None ↔ failing (ID m))
  ∧ ∀ id, fst (orderedIDs.InsertSlot g id X pos) ≠ None ↔ failing id.
Proof.
  assert (∀ id,
     fst (relativeOrder.Insert (orderedIDs.order g) id X pos) ≠ None ↔
       id ∈ relativeOrder.order (orderedIDs.order g) ∨
       X ∉ relativeOrder.order (orderedIDs.order g) ∨
       (pos ≠ Before ∧ pos ≠ After)) as Hord.
  { intros id. destruct (orderedIDs.order g) as [l]. simpl.
    destruct (decide (id ∈ l)) as [Hin|Hn].
    { unfold relativeOrder.Insert.
      rewrite has_found, bool_decide_eq_true_2 by done. simpl.
      split; [by left|done]. }
    destruct (decide (X ∈ l)) as [HX|HX].
    - destruct (first_occurrence _ _ HX) as (l1 & l2 & -> & Hl1).
      destruct (decide (pos = Before)) as [->|Hb].
      { rewrite Insert_Before by done. simpl. split; [done|].
        intros [?|[?|[? _]]]; done. }
      destruct (decide (pos = After)) as [->|Ha].
      { rewrite Insert_After by done. simpl. split; [done|].
        intros [?|[?|[_ ?]]]; done. }
      unfold relativeOrder.Insert.
      rewrite has_absent by done. simpl. rewrite has_present by done. simpl.
      unfold relativeOrder.insert.
      destruct (decide (pos = Before)); [done|].
      destruct (decide (pos = After)); [done|]. simpl.
      split; [|done]. intros _. by right; right.
    - unfold relativeOrder.Insert.
      rewrite has_absent by done. simpl. rewrite has_absent by done. simpl.
      split; [|done]. intros _. right. by left. }
  intros failing. subst failing. simpl. rewrite List_order. split.
  - unfold orderedIDs.Insert.
    destruct (empty_id (ID m)) eqn:E1; [simpl; split; [by left|done]|].
    destruct (empty_id X) eqn:E2; [simpl; split; [by right; left|done]|].
    specialize (Hord (ID m)).
    destruct (relativeOrder.Insert _ _ _ _) as [[e|] o]; simpl in *.
    + split; [|done]. intros _. right. right. by apply Hord.
    + split; [done|]. intros [?|[?|Hf]]; [done|done|]. by apply Hord.
  - intros id. unfold orderedIDs.InsertSlot.
    destruct (empty_id id) eqn:E1; [simpl; split; [by left|done]|].
    destruct (empty_id X) eqn:E2; [simpl; split; [by right; left|done]|].
    specialize (Hord id).
    destruct (relativeOrder.Insert _ _ _ _) as [[e|] o]; simpl in *.
    + split; [|done]. intros _. right. right. by apply Hord.
    + split; [done|]. intros [?|[?|Hf]]; [done|done|]. by apply Hord.
Qed.
End registry_errors.

(** ** Entries and slots of a reachable registry *)

Section registry_entries.
Context {Item : Type} `{ider Item}.
Implicit Types g : orderedIDs.t Item.

(** X7.  Unlike [Add], [Insert] does not fill a slot: on a registry built
    by the exported methods, inserting an item with the id of a slot,
    relative to any non-empty anchor, fails with the duplicate-id error. *)
Theorem Insert_does_not_fill_slot g m X pos :
  registry.reachable g ->
  orderedIDs.IsSlot g (ID m) = true ->
  empty_id X = false ->
  orderedIDs.Insert g m X pos = (Some (ErrAlreadyExists (ID m)), g).
Proof.
  intros Hr Hs HX.
  destruct (reachable_reserved g Hr (ID m)) as [Hne Hin];
    [by apply IsSlot_true|].
  unfold orderedIDs.Insert. rewrite Hne, HX.
  unfold relativeOrder.Insert.
  rewrite has_found, bool_decide_eq_true_2 by done. simpl.
  by rewrite with_order_same.
Qed.

Lemma filter_keeps_others (l : list string) (id : string) :
  id ∉ l -> filter (fun x => x ≠ id) l = l.
Proof.
  induction l as [|y l IH]; intros Hn; [done|].
  apply not_elem_of_cons in Hn as [Hy Hl].
  rewrite filter_cons_True by congruence. by rewrite IH.
Qed.

Lemma filter_out_middle (l1 l2 : list string) (id : string) :
  id ∉ l1 -> id ∉ l2 ->
  filter (fun x => x ≠ id) (l1 ++ id :: l2) = l1 ++ l2.
Proof.
  intros H1 H2. rewrite filter_app, filter_cons_False by (by intros ?).
  by rewrite !filter_keeps_others.
Qed.

(** X8.  On a registry built by the exported methods, [Remove] of an id of
    [List()] that is not a slot succeeds: the id is gone from [List()] and
    is no longer bound, the other ids keep their order, and the other
    bindings and the slots are untouched. *)
Theorem Remove_entry g id :
  registry.reachable g ->
  orderedIDs.IsSlot g id = false ->
  id ∈ orderedIDs.List g ->
  ∃ g', orderedIDs.Remove g id = (None, g') ∧
        orderedIDs.List g' = filter (fun x => x ≠ id) (orderedIDs.List g) ∧
        (id ∉ orderedIDs.List g') ∧
        orderedIDs.Get g' id = None ∧
        (∀ x, x ≠ id -> orderedIDs.Get g' x = orderedIDs.Get g x) ∧
        orderedIDs.slots g' = orderedIDs.slots g.
Proof.
  intros Hr Hs Hin. rewrite List_order in Hin.
  destruct (reachable_well_formed g Hr) as [Hu Hn _ _ _].
  unfold orderedIDs.Remove. rewrite (Hn id Hin), Hs. simpl.
  destruct (first_occurrence _ _ Hin) as (l1 & l2 & Hl & Hl1).
  destruct g as [[l] its sl]. simpl in *. subst l.
  destruct (NoDup_middle_inv _ _ _ Hu) as (_ & Hl2 & _).
  rewrite Remove_present by done. eexists. split; [done|].
  rewrite !List_order. unfold orderedIDs.Get. simpl.
  rewrite filter_out_middle by done.
  split; [done|]. split; [intros Hx; list_mem|].
  split; [apply lookup_delete_eq|].
  split; [|done]. intros x Hx. by apply lookup_delete_ne.
Qed.

(** X9.  On a registry built by the exported methods, [Swap] of an id of
    [List()] that is not a slot, with an item whose non-empty id is not
    elsewhere in [List()], succeeds and returns the item that was bound,
    which is never [nil]; the new id takes the index of the old one and is
    bound to the new item, and the old id is no longer bound. *)
Theorem Swap_entry g id m :
  registry.reachable g ->
  orderedIDs.IsSlot g id = false ->
  id ∈ orderedIDs.List g ->
  empty_id (ID m) = false ->
  ID m ∉ orderedIDs.List g ∨ ID m = id ->
  ∃ old g' i,
    orderedIDs.Swap g id m = ((Some old, None), g') ∧
    orderedIDs.Get g id = Some old ∧ ID old = id ∧
    orderedIDs.List g !! i = Some id ∧
    orderedIDs.List g' = <[i := ID m]> (orderedIDs.List g) ∧
    orderedIDs.Get g' (ID m) = Some m ∧
    (ID m ≠ id -> orderedIDs.Get g' id = None) ∧
    orderedIDs.slots g' = orderedIDs.slots g.
Proof.
  intros Hr Hs Hin Hne Hto. rewrite List_order in Hin, Hto.
  destruct (reachable_well_formed g Hr) as [Hu Hn _ Hi Hc].
  destruct (Hc id Hin) as [Hsl|[old Hold]];
    [by apply IsSlot_true in Hsl; congruence|].
  destruct (Hi id old Hold) as [Hid _].
  unfold orderedIDs.Swap. rewrite (Hn id Hin), Hne, Hs. simpl.
  destruct (first_occurrence _ _ Hin) as (l1 & l2 & Hl & Hl1).
  destruct g as [[l] its sl]. simpl in *. subst l.
  rewrite Swap_present by done. simpl. rewrite Hold.
  exists old. eexists. exists (length l1). split; [done|].
  rewrite !List_order. unfold orderedIDs.Get. simpl.
  split; [done|]. split; [done|].
  split; [by apply list_lookup_middle|].
  split; [by rewrite insert_app_r_alt, Nat.sub_diag by lia|].
  split; [apply lookup_insert_eq|].
  split; [|done]. intros Hd.
  rewrite lookup_insert_ne by done. apply lookup_delete_eq.
Qed.

(** X10.  On a registry built by the exported methods, [AddSlot] that
    succeeds leaves [GetOrder()] as it was: the id is at one end of
    [List()], it is a slot, and it is not bound. *)
Theorem AddSlot_reserves g id pos g' :
  registry.reachable g ->
  orderedIDs.AddSlot g id pos = (None, g') ->
  (orderedIDs.List g' = id :: orderedIDs.List g ∨
   orderedIDs.List g' = orderedIDs.List g ++ [id]) ∧
  orderedIDs.IsSlot g' id = true ∧
  orderedIDs.Get g' id = None ∧
  orderedIDs.GetOrder g' = orderedIDs.GetOrder g.
Proof.
  intros Hr Ha.
  destruct (reachable_well_formed g Hr) as [_ _ _ Hi _].
  unfold orderedIDs.AddSlot in Ha.
  destruct (empty_id id); [done|].
  assert (id ∉ relativeOrder.order (orderedIDs.order g) ->
          orderedIDs.items g !! id = None) as Hfree.
  { intros Hn. destruct (orderedIDs.items g !! id) as [m|] eqn:Hm; [|done].
    by destruct (Hi id m Hm). }
  rewrite !GetOrder_omap, !List_order.
  destruct (Add_cases (orderedIDs.order g) id pos)
    as [[e He]|[Hn [He|He]]]; rewrite He in Ha; simpl in Ha; [done| |];
    injection Ha as <-; unfold orderedIDs.Get; simpl;
    (split; [by (left + right)|]);
    (split; [apply IsSlot_true; simpl; apply elem_of_union; left;
             by apply elem_of_singleton|]);
    (split; [by apply Hfree|]).
  - by rewrite (Hfree Hn).
  - rewrite omap_app. simpl. by rewrite (Hfree Hn), app_nil_r.
Qed.

(** X11.  After an [Add] or an [Insert] that succeeds, [Get] returns the
    item for its id; the bindings of the other ids and the slots are
    untouched. *)
Theorem Get_after_Add_or_Insert g m X pos g' :
  orderedIDs.Add g m pos = (None, g') ∨
  orderedIDs.Insert g m X pos = (None, g') ->
  orderedIDs.Get g' (ID m) = Some m ∧
  (∀ id, id ≠ ID m -> orderedIDs.Get g' id = orderedIDs.Get g id) ∧
  orderedIDs.slots g' = orderedIDs.slots g.
Proof.
  assert (∀ o, let g1 := orderedIDs.with_order g o in
    let g2 := orderedIDs.with_items g1 (<[ID m := m]> (orderedIDs.items g1)) in
    orderedIDs.Get g2 (ID m) = Some m ∧
    (∀ id, id ≠ ID m -> orderedIDs.Get g2 id = orderedIDs.Get g id) ∧
    orderedIDs.slots g2 = orderedIDs.slots g) as Hbind.
  { intros o. unfold orderedIDs.Get. simpl.
    split; [apply lookup_insert_eq|]. split; [|done].
    intros id Hid. by apply lookup_insert_ne. }
  intros [Ha|Ha].
  - unfold orderedIDs.Add in Ha. destruct (empty_id (ID m)); [done|].
    destruct (orderedIDs.IsSlot g (ID m)); simpl in Ha.
    + injection Ha as <-. rewrite <- (with_order_same g) at 1 2 3.
      apply Hbind.
    + destruct (relativeOrder.Add _ _ _) as [[e|] o]; [done|].
      injection Ha as <-. apply Hbind.
  - unfold orderedIDs.Insert in Ha. destruct (empty_id (ID m)); [done|].
    destruct (empty_id X); [done|].
    destruct (relativeOrder.Insert _ _ _ _) as [[e|] o]; [done|].
    injection Ha as <-. apply Hbind.
Qed.
End registry_entries.

(** ** The step *)

Section step_facts.
Import step_deserialize invariant.
Context {Ctx Value Metadata HErr World : Type}.
Implicit Types s : DeserializeStep Ctx Value Metadata HErr World.
Implicit Types m : DeserializeMiddleware Ctx Value Metadata HErr World.

(** A slot that is reserved does not show in [GetOrder()]. *)
Lemma AddSlot_GetOrder
  (g : orderedIDs.t (DeserializeMiddleware Ctx Value Metadata HErr World))
  id pos :
  well_formed g ->
  orderedIDs.GetOrder (snd (orderedIDs.AddSlot g id pos))
  = orderedIDs.GetOrder g.
Proof.
  intros [_ _ _ Hi _]. unfold orderedIDs.AddSlot.
  destruct (empty_id id); [done|].
  assert (id ∉ relativeOrder.order (orderedIDs.order g) ->
          orderedIDs.items g !! id = None) as Hfree.
  { intros Hn. destruct (orderedIDs.items g !! id) as [m|] eqn:Hm; [|done].
    by destruct (Hi id m Hm). }
  rewrite !GetOrder_omap, !List_order.
  destruct (Add_cases (orderedIDs.order g) id pos)
    as [[e ->]|[Hn [-> | ->]]]; simpl; [done| |].
  - by rewrite (Hfree Hn).
  - rewrite omap_app. simpl. by rewrite (Hfree Hn), app_nil_r.
Qed.

(** X12.  On a step built by the exported methods, reserving a slot does
    not change what the step does: [HandleMiddleware] after [AddSlot],
    whether it succeeded or not, is [HandleMiddleware] before it. *)
Theorem HandleMiddleware_ignores_slots s id pos ctx i
  (next : Handler Ctx Value Metadata HErr World) w :
  registry.reachable (ids s) ->
  HandleMiddleware (snd (AddSlot s id pos)) ctx i next w
  = HandleMiddleware s ctx i next w.
Proof.
  intros Hr. unfold HandleMiddleware, AddSlot.
  pose proof (AddSlot_GetOrder (ids s) id pos (reachable_well_formed _ Hr))
    as Ho.
  destruct (orderedIDs.AddSlot (ids s) id pos) as [err g]. simpl in *.
  by rewrite Ho.
Qed.

(** X13.  The first middleware of [GetOrder()] is the outermost: it is
    called with the step's input and, as its next handler, the chain of
    the middleware that follow it; [HandleMiddleware] returns the
    [Result] field, the metadata and the error that it returns. *)
Theorem HandleMiddleware_first_is_outermost s m order ctx i
  (next : Handler Ctx Value Metadata HErr World) w :
  orderedIDs.GetOrder (ids s) = m :: order ->
  HandleMiddleware s ctx i next w
  = (let '((out, metadata, err), w') :=
       mwHandleDeserialize m ctx {| Request := i |}
         (foldr (fun m h => decoratedDeserializeHandler h m)
                (deserializeWrapHandler next) order) w in
     ((Result out, metadata, err), w')).
Proof.
  intros Ho. unfold HandleMiddleware. by rewrite Ho, chain_nested.
Qed.

(** X14.  On a step built by the exported methods, [Swap] panics exactly
    when [id] is a slot that is not bound and the middleware has the same
    id; in every other case it returns. *)
Theorem Swap_panics_iff_unfilled_slot s id m :
  registry.reachable (ids s) ->
  (∃ reason, fst (Swap s id m) = Panics reason) ↔
  orderedIDs.IsSlot (ids s) id = true ∧
  orderedIDs.Get (ids s) id = None ∧
  ID m = id.
Proof.
  intros Hr.
  pose proof (reachable_well_formed _ Hr) as [Hu Hn Hs Hi Hc].
  assert (orderedIDs.IsSlot (ids s) id = true ->
          empty_id id = false ∧
          id ∈ relativeOrder.order (orderedIDs.order (ids s))) as Hslot.
  { intros Hsl%IsSlot_true. split; [|by apply Hs]. by apply Hn, Hs. }
  unfold Swap, orderedIDs.Swap, orderedIDs.Get.
  destruct (empty_id id) eqn:E1; simpl.
  { split; [by intros [? ?]|]. intros (Hsl & _ & _).
    destruct (Hslot Hsl). congruence. }
  destruct (empty_id (ID m)) eqn:E2; simpl.
  { split; [by intros [? ?]|]. intros (Hsl & _ & Heq).
    destruct (Hslot Hsl). congruence. }
  destruct (orderedIDs.IsSlot (ids s) id) eqn:Hsl; simpl.
  - (* a slot *)
    destruct (Hslot eq_refl) as [_ Hin].
    case_bool_decide as Heq; simpl.
    + subst id.
      destruct (first_occurrence _ _ Hin) as (l1 & l2 & Hl & Hl1).
      destruct (ids s) as [[l] its sl]. simpl in *. subst l.
      rewrite Swap_present by (done || by right). simpl.
      destruct (its !! ID m) as [old|]; simpl.
      * split; [by intros [? ?]|]. by intros (_ & ? & _).
      * split; [done|]. intros _. by eexists.
    + split; [by intros [? ?]|]. intros (_ & _ & ?). congruence.
  - (* not a slot *)
    split; [|by intros (? & _)]. intros [reason Hp]. exfalso.
    destruct (Swap_cases (orderedIDs.order (ids s)) id (ID m))
      as [[e He]|(l1 & l2 & Hl & _ & _ & He)]; rewrite He in Hp;
      simpl in Hp; [done|].
    assert (id ∈ relativeOrder.order (orderedIDs.order (ids s))) as Hin
      by (rewrite Hl; list_mem).
    destruct (Hc id Hin) as [Hx|[old Hold]].
    + apply IsSlot_true in Hx. congruence.
    + by rewrite Hold in Hp.
Qed.
End step_facts.

(** ** Acceptors of the generated waiters *)

Section acceptor_facts.
Import Waiters waiter_kinds.
Context {Input Output OpErr ExtErr : Type}.
Variable Search : string -> option Output -> pathValue + ExtErr.
Variable SearchInputOutput :
  string -> Input -> option Output -> pathValue + ExtErr.
Variable errorsAsModeled : OpErr -> string -> bool.
Variable errorsAsAPIError : OpErr -> option string.
Variable operationErrors : list string.

Local Abbreviation block :=
  (acceptorBlock Search SearchInputOutput errorsAsModeled errorsAsAPIError
                 operationErrors).
Local Abbreviation body :=
  (retryableBody Search SearchInputOutput errorsAsModeled errorsAsAPIError
                 operationErrors).

(** The loop of [ALL_STRING_EQUALS] ends with [match] true exactly when
    it started true and every value is the expected one. *)
Lemma all_loop (expected : string) (l : list string) (start : bool) :
  foldl (fun m v => if negb (bool_decide (v = expected)) then false else m)
        start l
  = start && bool_decide (Forall (fun v => v = expected) l).
Proof.
  revert start. induction l as [|v l IH]; intros start; cbn [foldl].
  - rewrite bool_decide_eq_true_2 by constructor. by rewrite andb_true_r.
  - rewrite IH. destruct (decide (v = expected)) as [->|Hv].
    + rewrite (bool_decide_eq_true_2 (expected = expected)) by done.
      cbn [negb]. f_equal. apply bool_decide_ext. split.
      * intros Hl. by constructor.
      * intros Hl. by inversion Hl.
    + rewrite (bool_decide_eq_false_2 (v = expected)) by done. cbn [negb].
      rewrite (bool_decide_eq_false_2 (Forall _ (v :: l))).
      * by rewrite andb_false_r.
      * intros Hl. by inversion Hl.
Qed.

(** X15.  The AllStringEquals comparator fires exactly when the list
    extracted is not empty and every element equals the expected string;
    otherwise the block falls through. *)
Theorem AllStringEquals_fires_iff (acceptor : Acceptor)
  (l : list string) (expected : string) :
  writeWaiterComparator (ExtErr := ExtErr) acceptor ALL_STRING_EQUALS
    (VStrings l) expected
  = if decide (l ≠ [] ∧ Forall (fun v => v = expected) l)
    then Some (writeMatchedAcceptorReturn acceptor) else None.
Proof.
  unfold writeWaiterComparator. rewrite all_loop.
  destruct (decide (l ≠ [] ∧ Forall (fun v => v = expected) l))
    as [[Hne Hall]|Hn].
  - destruct l as [|v l]; [done|]. cbn [length Nat.eqb andb].
    by rewrite bool_decide_eq_true_2.
  - destruct l as [|v l]; [done|]. cbn [length Nat.eqb andb].
    rewrite bool_decide_eq_false_2; [done|].
    intros Hall. apply Hn. by split.
Qed.

(** X16.  The AnyStringEquals comparator fires exactly when the expected
    string is an element of the list extracted; on the empty list it
    falls through. *)
Theorem AnyStringEquals_fires_iff (acceptor : Acceptor)
  (l : list string) (expected : string) :
  writeWaiterComparator (ExtErr := ExtErr) acceptor ANY_STRING_EQUALS
    (VStrings l) expected
  = if decide (expected ∈ l)
    then Some (writeMatchedAcceptorReturn acceptor) else None.
Proof.
  unfold writeWaiterComparator.
  induction l as [|v l IH]; simpl.
  - destruct (decide (expected ∈ [])) as [Hin|];
      [by apply elem_of_nil in Hin|done].
  - case_bool_decide as Hv.
    + subst v. rewrite decide_True; [done|left].
    + rewrite IH. destruct (decide (expected ∈ l)) as [Hin|Hn].
      * rewrite decide_True; [done|by right].
      * rewrite decide_False; [done|].
        intros [?|?]%elem_of_cons; congruence.
Qed.

(** X17.  When the value extracted does not have the dynamic type that
    the comparator asserts, the comparator returns an error with retry
    false, whatever the expected string and the acceptor's state. *)
Theorem comparator_type_mismatch_is_error (acceptor : Acceptor)
  (comparator : PathComparator) (actual : pathValue) (expected : string) :
  asserted comparator actual = false ->
  ∃ e : waiterError ExtErr,
    writeWaiterComparator acceptor comparator actual expected
    = Some (false, Some e).
Proof.
  intros Ha. unfold writeWaiterComparator.
  destruct comparator, actual; try discriminate Ha; try (by eexists).
  all: destruct (ParseBool expected); by eexists.
Qed.

(** X18.  The acceptors are tried in the order they are declared and the
    first whose block returns decides: those after it are not looked
    at. *)
Theorem first_acceptor_that_fires_decides (pre post : list Acceptor)
  (acceptor : Acceptor) (input : Input) (output : option Output)
  (err : option OpErr) (v : verdict ExtErr) :
  (∀ a, a ∈ pre -> block a input output err = None) ->
  block acceptor input output err = Some v ->
  body (pre ++ acceptor :: post) input output err = v.
Proof.
  intros Hpre Hb. induction pre as [|a pre IH]; simpl.
  - by rewrite Hb.
  - rewrite (Hpre a) by left. apply IH. intros b Hin. apply Hpre. by right.
Qed.

Lemma matched_return_sound (acceptor : Acceptor) :
  fst (writeMatchedAcceptorReturn (ExtErr := ExtErr) acceptor) = true ->
  snd (writeMatchedAcceptorReturn (ExtErr := ExtErr) acceptor) = None.
Proof. unfold writeMatchedAcceptorReturn. by destruct (getState acceptor). Qed.

Lemma matched_return_alive (acceptor : Acceptor) (e : waiterError ExtErr) :
  snd (writeMatchedAcceptorReturn acceptor) = Some e -> is_dead_error e = false.
Proof.
  unfold writeMatchedAcceptorReturn.
  destruct (getState acceptor); simpl; intros Heq; try done.
  by injection Heq as <-.
Qed.

(** What a comparator can return. *)
Lemma comparator_returns (acceptor : Acceptor) (comparator : PathComparator)
  (actual : pathValue) (expected : string) (v : verdict ExtErr) :
  writeWaiterComparator acceptor comparator actual expected = Some v ->
  v = writeMatchedAcceptorReturn acceptor ∨
  ∃ e, v = (false, Some e) ∧ is_dead_error e = false.
Proof.
  unfold writeWaiterComparator. intros Hv.
  destruct comparator.
  - destruct actual; try (right; eexists; split; [by injection Hv as <-|done]).
    case_bool_decide; [|done]. left. by injection Hv as <-.
  - destruct (ParseBool expected) as [bv|];
      [|right; eexists; split; [by injection Hv as <-|done]].
    destruct actual; try (right; eexists; split; [by injection Hv as <-|done]).
    destruct (Bool.eqb b bv); [|done]. left. by injection Hv as <-.
  - destruct actual; try (right; eexists; split; [by injection Hv as <-|done]).
    destruct (foldl _ _ _); [|done]. left. by injection Hv as <-.
  - destruct actual; try (right; eexists; split; [by injection Hv as <-|done]).
    induction l as [|x l IH]; simpl in Hv; [done|].
    case_bool_decide; [|by apply IH]. left. by injection Hv as <-.
Qed.

(** What the block of an acceptor can return. *)
Lemma block_returns (acceptor : Acceptor) (input : Input)
  (output : option Output) (err : option OpErr) (v : verdict ExtErr) :
  block acceptor input output err = Some v ->
  v = writeMatchedAcceptorReturn acceptor ∨
  ∃ e, v = (false, Some e) ∧ is_dead_error e = false.
Proof.
  unfold acceptorBlock. intros Hv.
  destruct (getMatcher acceptor) as [pm|pm|b|errorType].
  - destruct err; [done|].
    destruct (Search _ _) as [pv|e]; [by eapply comparator_returns|].
    right. eexists. split; [by injection Hv as <-|done].
  - destruct err; [done|].
    destruct (SearchInputOutput _ _ _) as [pv|e];
      [by eapply comparator_returns|].
    right. eexists. split; [by injection Hv as <-|done].
  - destruct err; [done|]. left. by injection Hv as <-.
  - destruct err as [e|]; [|done].
    destruct (List.find _ _) as [name|].
    + destruct (errorsAsModeled e name); [|done]. left. by injection Hv as <-.
    + destruct (errorsAsAPIError e) as [code|].
      * case_bool_decide; [|done]. left. by injection Hv as <-.
      * right. eexists. split; [by injection Hv as <-|done].
Qed.

Lemma body_returns (acceptors : list Acceptor) (input : Input)
  (output : option Output) (err : option OpErr) :
  let v := body acceptors input output err in
  (fst v = true -> snd v = None) ∧
  (∀ e, snd v = Some e -> fst v = false ∧ is_dead_error e = false).
Proof.
  induction acceptors as [|a l IH]; simpl; [by split|].
  destruct (block a input output err) as [v|] eqn:Hb; [|exact IH].
  destruct (block_returns _ _ _ _ _ Hb) as [->|(e & -> & He)].
  - split; [apply matched_return_sound|].
    intros e He. split; [|by eapply matched_return_alive].
    destruct (fst (writeMatchedAcceptorReturn a)) eqn:Hf; [|done].
    apply matched_return_sound in Hf. congruence.
  - split; [done|]. simpl. intros e' [= <-]. done.
Qed.

(** X19.  The generated retryable function never asks for a retry and
    returns an error at once: retry true comes with a nil error, and an
    error comes with retry false. *)
Theorem retryable_error_is_terminal (waiter : Waiter) (input : Input)
  (output : option Output) (err : option OpErr) :
  let v := generateRetryable Search SearchInputOutput errorsAsModeled
             errorsAsAPIError operationErrors waiter input output err in
  (fst v = true -> snd v = None) ∧ (snd v ≠ None -> fst v = false).
Proof.
  simpl. unfold generateRetryable.
  destruct (body_returns (getAcceptors waiter) input output err) as [H1 H2].
  split; [exact H1|]. intros Hn.
  destruct (snd (body _ _ _ _)) as [e|] eqn:He; [|done].
  by destruct (H2 e).
Qed.

(** X20.  When the operation fails and no acceptor has an errorType
    matcher, none fires: the verdict is the default retry.  Path and
    success matchers are tried only when the error is nil. *)
Theorem operation_error_is_retried_without_errorType
  (acceptors : list Acceptor) (input : Input) (output : option Output)
  (e : OpErr) :
  (∀ a, a ∈ acceptors -> is_errorType (getMatcher a) = false) ->
  body acceptors input output (Some e) = (true, None).
Proof.
  intros Hall. apply body_none_fire. intros a Ha.
  specialize (Hall a Ha). unfold acceptorBlock.
  by destruct (getMatcher a).
Qed.
End acceptor_facts.

(** ** The invoker of the generated waiters *)

Section invoker_facts.
Import Waiters waiter_kinds.
Context {Input Output OpErr ExtErr Ctx APIOption : Type}.
Variable waiterName : string.
Variable ComputeDelay : Z -> Z -> Z -> Z -> Z + ExtErr.
Variable SleepWithContext : Ctx -> Z -> Z -> option ExtErr.
Variable WithDeadline : Ctx -> Z -> Ctx.

Local Abbreviation Options := (WaiterOptions Input Output OpErr ExtErr APIOption).
Local Abbreviation Client := (WaiterClient Input Output OpErr ExtErr Ctx APIOption).
Local Abbreviation loop := (waitLoop waiterName ComputeDelay SleepWithContext).
Local Abbreviation wait :=
  (Wait waiterName ComputeDelay SleepWithContext WithDeadline).

Lemma wrap64_small (z : Z) :
  (- 2 ^ 63 <= z < 2 ^ 63)%Z -> wrap64 z = z.
Proof.
  intros Hz. unfold wrap64. rewrite Z.mod_small by lia. lia.
Qed.

(** X21.  A maximum wait time that is zero or negative is not rejected:
    [Wait] applies the overrides, enters the loop and returns the error
    of an exceeded wait time; the operation is not invoked. *)
Theorem Wait_nonpositive_returns_exceeded (fuel : nat) (w : Client)
  (ctx : Ctx) (params : Input) (maxWaitTime : Z)
  (optFns : list (Options -> Options)) :
  (maxWaitTime <= 0)%Z ->
  wait (S fuel) w ctx params maxWaitTime optFns
  = Some (Some (ErrExceededMaximumWaitTime waiterName), []).
Proof.
  intros Hm. unfold Wait. simpl.
  destruct (maxWaitTime <=? 0)%Z eqn:E; [done|]. lia.
Qed.

(** X22.  With a positive maximum wait time the first attempt is made at
    once: no delay is computed and nothing sleeps.  When the verdict on it
    is an error or is not a retry, [Wait] returns that error, or nil,
    after this one invocation. *)
Theorem Wait_first_attempt_decides (fuel : nat) (w : Client) (ctx : Ctx)
  (params : Input) (maxWaitTime : Z) (optFns : list (Options -> Options))
  (out : option Output) (err : option OpErr)
  (retryable : bool) (verr : option (waiterError ExtErr)) :
  let opts := foldl (fun o fn => fn o) (options w) optFns in
  (0 < maxWaitTime)%Z ->
  client w (WithDeadline ctx maxWaitTime) params (APIOptions opts) 0 = (out, err) ->
  Retryable opts params out err = (retryable, verr) ->
  verr ≠ None ∨ retryable = false ->
  wait (S fuel) w ctx params maxWaitTime optFns
  = Some (verr,
          (if LogWaitAttempts opts then [EvLog 1] else [])
            ++ [EvInvoke 0; EvRetryable 0]).
Proof.
  intros opts Hm Hc Hr Hv. unfold Wait. simpl. fold opts.
  destruct (maxWaitTime <=? 0)%Z eqn:E; [lia|].
  unfold backoff. simpl. rewrite Hc, Hr.
  destruct verr as [e|].
  - by destruct (LogWaitAttempts opts).
  - destruct Hv as [? | ->]; [done|]. by destruct (LogWaitAttempts opts).
Qed.

(** The loop returns when it is given more fuel than time remains,
    provided every delay is at least one nanosecond. *)
Lemma loop_returns (w : Client) (ctx : Ctx) (opts : Options) (params : Input) :
  (∀ a b r n d, ComputeDelay a b r n = inl d -> (1 <= d < 2 ^ 63)%Z) ->
  ∀ (fuel : nat) (attempt remainingTime : Z) (tr : list event),
    (remainingTime < 2 ^ 63)%Z ->
    (remainingTime <= 0 ∨ (1 <= attempt ∧ attempt + remainingTime <= 2 ^ 63))%Z ->
    (Z.to_nat remainingTime < fuel)%nat ->
    ∃ res, loop fuel w ctx opts params attempt remainingTime tr = Some res.
Proof.
  intros Hd. induction fuel as [|fuel IH]; intros attempt r tr Hr Hinv Hf;
    [lia|].
  simpl. destruct (r <=? 0)%Z eqn:E; [by eexists|].
  apply Z.leb_gt in E. destruct Hinv as [?|[Ha Hsum]]; [lia|].
  unfold backoff. destruct (0 <? attempt)%Z eqn:Epos; [|lia].
  destruct (ComputeDelay _ _ _ _) as [d|e] eqn:Hcd; [|by eexists].
  specialize (Hd _ _ _ _ _ Hcd).
  rewrite wrap64_small by lia.
  destruct (SleepWithContext _ _ _); [by eexists|].
  destruct (client w ctx params (APIOptions opts) attempt) as [out err].
  destruct (Retryable opts params out err) as [retryable [e|]];
    [by eexists|].
  destruct retryable; simpl; [|by eexists].
  apply IH; [lia| |lia].
  destruct (decide (r - d <= 0)%Z); [by left|right].
  rewrite wrap64_small by lia. lia.
Qed.

(** X23.  [Wait] returns: when every computed delay is at least one
    nanosecond, the loop ends within [maxWaitTime + 2] iterations,
    whatever the operation, the verdicts and the sleeps are. *)
Theorem Wait_returns (w : Client) (ctx : Ctx) (params : Input)
  (maxWaitTime : Z) (optFns : list (Options -> Options)) :
  (∀ a b r n d, ComputeDelay a b r n = inl d -> (1 <= d < 2 ^ 63)%Z) ->
  (maxWaitTime < 2 ^ 63)%Z ->
  ∃ res, wait (S (S (Z.to_nat maxWaitTime))) w ctx params maxWaitTime optFns
         = Some res.
Proof.
  intros Hd Hm. unfold Wait.
  set (opts := foldl _ _ _). set (ctx' := WithDeadline _ _).
  remember (S (Z.to_nat maxWaitTime)) as fuel eqn:Hfuel.
  cbn [waitLoop].
  destruct (maxWaitTime <=? 0)%Z eqn:E; [by eexists|].
  apply Z.leb_gt in E. unfold backoff. cbn -[waitLoop Z.to_nat].
  destruct (client w ctx' params (APIOptions opts) 0) as [out err].
  destruct (Retryable opts params out err) as [retryable [e|]];
    [by eexists|].
  destruct retryable; cbn [negb]; [|by eexists].
  apply (loop_returns w ctx' opts params Hd); [done| |lia].
  right. rewrite wrap64_small by lia. lia.
Qed.

(** The errors of the loop when the verdicts come from a function that
    returns none of the two dead errors. *)
Lemma loop_errors_alive (w : Client) (ctx : Ctx) (opts : Options)
  (params : Input) :
  (∀ out err e, snd (Retryable opts params out err) = Some e ->
                is_dead_error e = false) ->
  ∀ (fuel : nat) (attempt remainingTime : Z) (tr tr' : list event) e,
    loop fuel w ctx opts params attempt remainingTime tr = Some (Some e, tr') ->
    is_dead_error e = false.
Proof.
  intros Hret. induction fuel as [|fuel IH]; intros attempt r tr tr' e;
    [done|].
  simpl. destruct (r <=? 0)%Z; [by intros [= <- _]|].
  unfold backoff. destruct (0 <? attempt)%Z.
  - destruct (ComputeDelay _ _ _ _) as [d|e']; [|by intros [= <- _]].
    destruct (SleepWithContext _ _ _); [by intros [= <- _]|].
    destruct (client w ctx params (APIOptions opts) attempt) as [out err].
    pose proof (Hret out err) as Hv.
    destruct (Retryable opts params out err) as [retryable [e'|]].
    + intros [= <- _]. by apply Hv.
    + destruct retryable; simpl; [apply IH|done].
  - destruct (client w ctx params (APIOptions opts) attempt) as [out err].
    pose proof (Hret out err) as Hv.
    destruct (Retryable opts params out err) as [retryable [e'|]].
    + intros [= <- _]. by apply Hv.
    + destruct retryable; simpl; [apply IH|done].
Qed.

Variable Search : string -> option Output -> pathValue + ExtErr.
Variable SearchInputOutput :
  string -> Input -> option Output -> pathValue + ExtErr.
Variable errorsAsModeled : OpErr -> string -> bool.
Variable errorsAsAPIError : OpErr -> option string.
Variable operationErrors : list string.

(** X24.  With the generated retryable function, [Wait] never returns the
    error written under [if maxWaitTime == 0] nor the one written after
    the loop, whatever the maximum wait time, the operation and the
    collaborators are. *)
Theorem Wait_never_returns_dead_error (waiter : Waiter) (fuel : nat)
  (w : Client) (ctx : Ctx) (params : Input) (maxWaitTime : Z)
  (optFns : list (Options -> Options)) e (tr : list event) :
  (∀ input output err,
     Retryable (foldl (fun o fn => fn o) (options w) optFns) input output err
     = generateRetryable Search SearchInputOutput errorsAsModeled
         errorsAsAPIError operationErrors waiter input output err) ->
  wait fuel w ctx params maxWaitTime optFns = Some (Some e, tr) ->
  is_dead_error e = false.
Proof.
  intros Hgen. unfold Wait. apply loop_errors_alive.
  intros out err e' He'. rewrite Hgen in He'. unfold generateRetryable in He'.
  by destruct (body_returns Search SearchInputOutput errorsAsModeled
                 errorsAsAPIError operationErrors (getAcceptors waiter)
                 params out err) as [_ Hb]; destruct (Hb e' He').
Qed.
End invoker_facts.

(** ** The classes of the code generator *)

Section config_field_facts.
Import ConfigField.
Context {Symbol : Type}.

(** X25.  A config field goes through its builder unchanged:
    [toBuilder().build()] does not throw and returns a field with the same
    name, type and documentation, also when the documentation is null. *)
Theorem toBuilder_build (c : ConfigField.t Symbol) :
  build (toBuilder c) = Normal c.
Proof. by destruct c. Qed.

Lemma String_compareTo_from_zero (a b : string) (len1 len2 : Z) :
  (len1 - len2 = Z.of_nat (String.length a) - Z.of_nat (String.length b))%Z ->
  String_compareTo_from a b len1 len2 = 0%Z ↔ a = b.
Proof.
  revert b. induction a as [|c1 a IH]; intros [|c2 b] Hlen; simpl in *.
  - split; [done|lia].
  - split; [lia|done].
  - split; [lia|done].
  - case_bool_decide as Hc.
    + subst c2. rewrite IH by lia. split; congruence.
    + split; [|congruence]. intros Hz. exfalso. apply Hc.
      rewrite <- (Ascii.ascii_N_embedding c1), <- (Ascii.ascii_N_embedding c2).
      f_equal. lia.
Qed.

(** X26.  The order of config fields agrees with their equality:
    [compareTo] returns 0 exactly when [equals] returns true, that is,
    when the names are the same, whatever the types and the
    documentation are. *)
Theorem compareTo_zero_iff_equals (c o : ConfigField.t Symbol) :
  compareTo c o = 0%Z ↔ equals c (Some o) = true.
Proof.
  unfold compareTo, equals, String_compareTo, getName.
  rewrite String_compareTo_from_zero by done.
  by rewrite bool_decide_eq_true.
Qed.
End config_field_facts.

Section interface_generator_facts.
Import OperationInterfaceGenerator.

Lemma elem_of_addIds (operations : list OperationShape) (set : gset string)
  (id : string) :
  id ∈ addIds operations set ↔
  id ∈ set ∨ ∃ operation, operation ∈ operations ∧ getId operation = id.
Proof.
  unfold addIds. revert set.
  induction operations as [|op l IH]; intros set; simpl.
  - split; [by left|]. intros [?|(? & Hin & _)]; [done|].
    by apply elem_of_nil in Hin.
  - rewrite IH, elem_of_union, elem_of_singleton. split.
    + intros [[->|?]|(o & Hin & Hid)]; [right|by left|right].
      * exists op. split; [left|done].
      * exists o. split; [by right|done].
    + intros [?|(o & Hin & Hid)]; [left; by right|].
      apply elem_of_cons in Hin as [->|Hin]; [left; by left|].
      right. by exists o.
Qed.

(** X27.  After [processFinalizedModel] a shape id is in the set of
    client-interface operations exactly when it was there before, or it
    is the id of a contained operation that is paginated or waitable, or
    of any contained operation when the service is paginated.  The call
    throws exactly when that set is empty: nothing was there before and
    no contained operation qualifies. *)
Theorem processFinalizedModel_collects (before : gset string)
  (servicePaginated : bool) (operations : list OperationShape) :
  let qualifies (operation : OperationShape) : Prop :=
    hasPaginatedTrait operation = true ∨ servicePaginated = true ∨
    hasWaitableTrait operation = true in
  let '(result, after) :=
    processFinalizedModel before servicePaginated operations in
  (∀ id, id ∈ after ↔
         id ∈ before ∨
         ∃ operation, operation ∈ operations ∧ getId operation = id ∧
                      qualifies operation)
  ∧ (result = Throws "CodegenException" "empty operations" ↔
     before = ∅ ∧ ∀ operation, operation ∈ operations -> ¬ qualifies operation).
Proof.
  intros qualifies. unfold processFinalizedModel.
  set (after := addIds (List.filter hasWaitableTrait operations) _).
  assert (∀ id, id ∈ after ↔
     id ∈ before ∨
     ∃ operation, operation ∈ operations ∧ getId operation = id ∧
                  qualifies operation) as Hmem.
  { intros id. subst after qualifies. rewrite elem_of_addIds.
    destruct servicePaginated.
    - rewrite !elem_of_addIds. split.
      + intros [[[?|(o & Hin & Hid)]|(o & Hin & Hid)]|(o & Hin & Hid)].
        * by left.
        * apply list_elem_of_In, filter_In in Hin as [Hin Hp].
          right. exists o. apply list_elem_of_In in Hin. tauto.
        * right. exists o. tauto.
        * apply list_elem_of_In, filter_In in Hin as [Hin Hp].
          right. exists o. apply list_elem_of_In in Hin. tauto.
      + intros [?|(o & Hin & Hid & _)]; [by left; left; left|].
        left. right. by exists o.
    - rewrite !elem_of_addIds. split.
      + intros [[?|(o & Hin & Hid)]|(o & Hin & Hid)].
        * by left.
        * apply list_elem_of_In, filter_In in Hin as [Hin Hp].
          right. exists o. apply list_elem_of_In in Hin. tauto.
        * apply list_elem_of_In, filter_In in Hin as [Hin Hp].
          right. exists o. apply list_elem_of_In in Hin. tauto.
      + intros [?|(o & Hin & Hid & [Hp|[?|Hw]])];
          [by left; left|left; right|done|right]; exists o;
          (split; [|done]); apply list_elem_of_In, filter_In; split;
          try done; by apply list_elem_of_In. }
  case_bool_decide as He; (split; [exact Hmem|]).
  - split; [|done]. intros _. split.
    + apply set_eq. intros id. split; [|by intros ?%elem_of_empty].
      intros Hin. rewrite <- He. apply Hmem. by left.
    + intros o Hin Hq. apply (not_elem_of_empty (C := gset string) (getId o)).
      rewrite <- He. apply Hmem. right. by exists o.
  - split; [done|]. intros [Hb Hnone]. exfalso. apply He.
    apply set_eq. intros id. split; [|by intros ?%elem_of_empty].
    intros [Hin|(o & Hin & _ & Hq)]%Hmem.
    + by rewrite Hb in Hin.
    + by destruct (Hnone o Hin).
Qed.
End interface_generator_facts.

(** ** The further theorems at the examples *)

Section at_scenarios.
Import examples scenarios.

Lemma List_ids_unique_witness :
  NoDup (orderedIDs.List slotX_then_A) ∧
  ∀ id, id ∈ orderedIDs.List slotX_then_A -> empty_id id = false.
Proof.
  exact (List_ids_unique slotX_then_A
           (registry.reach_Add _ _ _
              (registry.reach_AddSlot _ _ _ registry.reach_new))).
Defined.

Lemma Get_agrees_with_List_witness :
  (∀ id m, orderedIDs.Get filledX id = Some m ->
           ID m = id ∧ id ∈ orderedIDs.List filledX)
  ∧ (∀ id, id ∈ orderedIDs.List filledX ->
           orderedIDs.IsSlot filledX id = true ∨
           is_Some (orderedIDs.Get filledX id)).
Proof.
  exact (Get_agrees_with_List filledX
           (registry.reach_Add _ _ _
              (registry.reach_AddSlot _ _ _ registry.reach_new))).
Defined.

Lemma GetOrder_is_bound_part_of_List_witness :
  ID <$> orderedIDs.GetOrder slotX_then_A
    = filter (fun id => is_Some (orderedIDs.Get slotX_then_A id))
             (orderedIDs.List slotX_then_A)
  ∧ NoDup (ID <$> orderedIDs.GetOrder slotX_then_A)
  ∧ ∀ m, m ∈ orderedIDs.GetOrder slotX_then_A ↔
         orderedIDs.Get slotX_then_A (ID m) = Some m.
Proof.
  exact (GetOrder_is_bound_part_of_List slotX_then_A
           (registry.reach_Add _ _ _
              (registry.reach_AddSlot _ _ _ registry.reach_new))).
Defined.

Lemma failed_call_changes_nothing_witness :
  snd (mutation.exec slotX_then_A (mutation.CallInsert (item "B" 0) "Z" After))
  = slotX_then_A.
Proof.
  apply (failed_call_changes_nothing slotX_then_A
           (mutation.CallInsert (item "B" 0) "Z" After) (ErrNotFound "Z")).
  vm_compute. reflexivity.
Defined.

Lemma Insert_does_not_fill_slot_witness :
  orderedIDs.Insert slotX_then_A (item "X" 1) "A" Before
  = (Some (ErrAlreadyExists "X"), slotX_then_A).
Proof.
  exact (Insert_does_not_fill_slot slotX_then_A (item "X" 1) "A" Before
           (registry.reach_Add _ _ _
              (registry.reach_AddSlot _ _ _ registry.reach_new))
           eq_refl eq_refl).
Defined.

Lemma Remove_entry_witness :
  ∃ g', orderedIDs.Remove slotX_then_A "A" = (None, g') ∧
        orderedIDs.List g'
          = filter (fun x => x ≠ "A") (orderedIDs.List slotX_then_A) ∧
        ("A" ∉ orderedIDs.List g') ∧
        orderedIDs.Get g' "A" = None ∧
        (∀ x, x ≠ "A" -> orderedIDs.Get g' x = orderedIDs.Get slotX_then_A x) ∧
        orderedIDs.slots g' = orderedIDs.slots slotX_then_A.
Proof.
  apply (Remove_entry slotX_then_A "A").
  - apply registry.reach_Add, registry.reach_AddSlot, registry.reach_new.
  - vm_compute. reflexivity.
  - decide_by_computation.
Defined.

Lemma Swap_entry_witness :
  ∃ old g' i,
    orderedIDs.Swap slotX_then_A "A" (item "B" 0) = ((Some old, None), g') ∧
    orderedIDs.Get slotX_then_A "A" = Some old ∧ ID old = "A" ∧
    orderedIDs.List slotX_then_A !! i = Some "A" ∧
    orderedIDs.List g' = <[i := "B"]> (orderedIDs.List slotX_then_A) ∧
    orderedIDs.Get g' "B" = Some (item "B" 0) ∧
    ("B" ≠ "A" -> orderedIDs.Get g' "A" = None) ∧
    orderedIDs.slots g' = orderedIDs.slots slotX_then_A.
Proof.
  assert ("A" ∈ orderedIDs.List slotX_then_A) as Hin
    by decide_by_computation.
  assert ("B" ∉ orderedIDs.List slotX_then_A) as Hfresh
    by decide_by_computation.
  exact (Swap_entry slotX_then_A "A" (item "B" 0)
           (registry.reach_Add _ _ _
              (registry.reach_AddSlot _ _ _ registry.reach_new))
           eq_refl Hin eq_refl (or_introl Hfresh)).
Defined.

Lemma AddSlot_reserves_witness :
  (orderedIDs.List slotX = ["X"] ∨ orderedIDs.List slotX = [] ++ ["X"]) ∧
  orderedIDs.IsSlot slotX "X" = true ∧
  orderedIDs.Get slotX "X" = None ∧
  orderedIDs.GetOrder slotX = [].
Proof.
  exact (AddSlot_reserves orderedIDs.newOrderedIDs "X" After slotX
           registry.reach_new eq_refl).
Defined.

Lemma Get_after_Add_or_Insert_witness :
  orderedIDs.Get slotX_then_A "A" = Some (item "A" 0) ∧
  (∀ id, id ≠ "A" -> orderedIDs.Get slotX_then_A id = orderedIDs.Get slotX id) ∧
  orderedIDs.slots slotX_then_A = orderedIDs.slots slotX.
Proof.
  exact (Get_after_Add_or_Insert slotX (item "A" 0) "X" After slotX_then_A
           (or_introl eq_refl)).
Defined.

Lemma HandleMiddleware_ignores_slots_witness :
  step_deserialize.HandleMiddleware
    (snd (step_deserialize.AddSlot stepABC "X" Before))
    tt (Some "request") terminal []
  = step_deserialize.HandleMiddleware stepABC tt (Some "request") terminal [].
Proof.
  apply (HandleMiddleware_ignores_slots stepABC "X" Before tt
           (Some "request") terminal []).
  exact (registry.reach_Add _ (step_deserialize.delegating "C") After
           (registry.reach_Add _ (step_deserialize.delegating "B") After
              (registry.reach_Add _ (step_deserialize.delegating "A") After
                 registry.reach_new))).
Defined.

Lemma HandleMiddleware_first_is_outermost_witness :
  step_deserialize.HandleMiddleware stepAbC tt (Some "request") terminal []
  = ((Some "cached", tt, None), ["A"; "B"]).
Proof.
  assert (orderedIDs.GetOrder (step_deserialize.ids stepAbC)
          = step_deserialize.delegating "A"
            :: [step_deserialize.shortCircuiting "B" cached;
                step_deserialize.delegating "C"])
    as Horder by (vm_compute; reflexivity).
  exact (HandleMiddleware_first_is_outermost stepAbC _ _ tt
           (Some "request") terminal [] Horder).
Defined.

Lemma Swap_panics_iff_unfilled_slot_witness :
  (∃ reason, fst (step_deserialize.Swap stepSlotX "X" stubX) = Panics reason) ↔
  orderedIDs.IsSlot (step_deserialize.ids stepSlotX) "X" = true ∧
  orderedIDs.Get (step_deserialize.ids stepSlotX) "X" = None ∧
  ID stubX = "X".
Proof.
  exact (Swap_panics_iff_unfilled_slot stepSlotX "X" stubX
           (registry.reach_AddSlot _ "X" After registry.reach_new)).
Defined.

Lemma HandleMiddleware_all_delegating_witness :
  step_deserialize.HandleMiddleware stepABC tt (Some "request") terminal []
  = ((None, tt, None), ["A"; "B"; "C"; "terminal"]).
Proof.
  assert (orderedIDs.GetOrder (step_deserialize.ids stepABC)
          = step_deserialize.delegating <$> ["A"; "B"; "C"])
    as Horder by (vm_compute; reflexivity).
  exact (HandleMiddleware_all_delegating stepABC tt (Some "request")
           terminal [] ["A"; "B"; "C"] Horder).
Defined.

Lemma comparator_type_mismatch_is_error_witness :
  ∃ e : Waiters.waiterError string,
    Waiters.writeWaiterComparator allRunning Waiters.ALL_STRING_EQUALS
      (Waiters.VString "running") "running"
    = Some (false, Some e).
Proof.
  apply (comparator_type_mismatch_is_error allRunning
           Waiters.ALL_STRING_EQUALS (Waiters.VString "running") "running").
  reflexivity.
Defined.

Lemma first_acceptor_that_fires_decides_witness :
  retryableBodyAt [onError; onSuccess; allRunning] (Some []) None
  = (false, None).
Proof.
  apply (first_acceptor_that_fires_decides
           search searchInputOutput noModeledError noAPIError []
           [onError] [allRunning] onSuccess tt (Some []) None (false, None)).
  - intros a Ha. apply list_elem_of_singleton in Ha as ->. reflexivity.
  - reflexivity.
Defined.

Lemma operation_error_is_retried_without_errorType_witness :
  retryableBodyAt [allRunning; onSuccess] None (Some "throttled")
  = (true, None).
Proof.
  apply (operation_error_is_retried_without_errorType
           search searchInputOutput noModeledError noAPIError []
           [allRunning; onSuccess] tt None "throttled").
  intros a Ha. apply elem_of_cons in Ha as [->|Ha]; [reflexivity|].
  apply list_elem_of_singleton in Ha as ->. reflexivity.
Defined.

Lemma Wait_nonpositive_returns_exceeded_witness :
  wait 1 (-5)
  = Some (Some (Waiters.ErrExceededMaximumWaitTime "InstanceRunning"), []).
Proof.
  apply (Wait_nonpositive_returns_exceeded "InstanceRunning"
           oneSecond sleepThrough sameContext 0 waiterClient tt tt (-5) []).
  lia.
Defined.

Lemma Wait_first_attempt_decides_witness :
  wait 1 Waiters.Second
  = Some (None, [Waiters.EvInvoke 0; Waiters.EvRetryable 0]).
Proof.
  exact (Wait_first_attempt_decides "InstanceRunning"
           oneSecond sleepThrough sameContext 0 waiterClient tt tt
           Waiters.Second [] (Some ["running"; "running"]) None false None
           eq_refl eq_refl eq_refl (or_intror eq_refl)).
Defined.

Lemma Wait_returns_witness :
  ∃ res, wait (S (S (Z.to_nat 10))) 10 = Some res.
Proof.
  apply (Wait_returns "InstanceRunning" oneSecond sleepThrough sameContext
           waiterClient tt tt 10 []).
  - intros a b r n d [= <-]. unfold Waiters.Second. lia.
  - lia.
Defined.

Lemma Wait_never_returns_dead_error_witness :
  waiter_kinds.is_dead_error
    (Waiters.ErrExceededMaximumWaitTime (ExtErr := string) "InstanceRunning")
  = false.
Proof.
  apply (Wait_never_returns_dead_error "InstanceRunning"
           oneSecond sleepThrough sameContext
           search searchInputOutput noModeledError noAPIError []
           instanceRunning 1 waiterClient tt tt 0 [] _ []).
  - intros input output err. reflexivity.
  - reflexivity.
Defined.

End at_scenarios.

